(** * cv-job-matcher: a shallow embedding of the scraping, extraction and
      analysis helpers, with the properties of their specification.

    Python values are modelled as follows.
    - A [str] is the list of its Unicode code points ([text]).
    - A Python [int] is a [Z]; indices returned by the matcher are [nat]
      and injected into [Z] where the source does arithmetic on them.
    - An operation that can raise returns a [result]: [Ok v] or [Raise e],
      where [e] carries what [str(e)] would print. *)

From Stdlib Require Import List NArith ZArith QArith Lia Bool String Ascii.
Import ListNotations.

Close Scope Q_scope.

(** ** Python strings *)

Definition char := N.
Definition text := list char.

(** A source literal, written as a Rocq string of ASCII characters. *)
Definition str (s : string) : text :=
  map N_of_ascii (list_ascii_of_string s).

Definition text_eqb (a b : text) : bool :=
  if list_eq_dec N.eq_dec a b then true else false.

(** [len(t)] *)
Definition len (t : text) : Z := Z.of_nat (List.length t).

(** Python's index normalisation for a slice bound: a negative bound counts
    from the end, and every bound is clamped to [0 .. len]. *)
Definition slice_bound (n i : Z) : Z :=
  if (i <? 0)%Z then Z.max 0 (i + n) else Z.min i n.

(** [t[lo:hi]] *)
Definition slice (t : text) (lo hi : Z) : text :=
  let a := slice_bound (len t) lo in
  let b := slice_bound (len t) hi in
  firstn (Z.to_nat (b - a)) (skipn (Z.to_nat a) t).

(** ** Exceptions *)

Inductive result (A : Type) : Type :=
| Ok (v : A)
| Raise (e : text).

Arguments Ok {A} v.
Arguments Raise {A} e.

Definition bind {A B} (m : result A) (k : A -> result B) : result B :=
  match m with
  | Ok v => k v
  | Raise e => Raise e
  end.

(** [try: body  except Exception as e: handler(e)] *)
Definition try_except {A} (body : result A) (handler : text -> result A)
  : result A :=
  match body with
  | Ok v => Ok v
  | Raise e => handler e
  end.

Notation "x <- m ;; k" := (bind m (fun x => k))
  (at level 61, m at next level, right associativity).

(** ** Case-insensitive literal matching ([re.search] with [(?i)])

    Every pattern of the source is [(?i)] followed by literal characters.
    For a literal ASCII letter the matcher accepts a subject character whose
    lower-case form is that letter, or one of the letter's extra case
    variants; a character that is not a letter is matched exactly. *)
Module Regex.

Definition is_ascii_lower (c : char) : bool := (97 <=? c)%N && (c <=? 122)%N.
Definition is_ascii_upper (c : char) : bool := (65 <=? c)%N && (c <=? 90)%N.

Definition ascii_tolower (c : char) : char :=
  if is_ascii_upper c then (c + 32)%N else c.

(** Subject characters outside ASCII that fold to an ASCII letter:
    U+0130 and U+0131 for [i], U+017F for [s], U+212A for [k]. *)
Definition extra_variant (lo d : char) : bool :=
  ((lo =? 105)%N && ((d =? 304)%N || (d =? 305)%N))
  || ((lo =? 115)%N && (d =? 383)%N)
  || ((lo =? 107)%N && (d =? 8490)%N).

(** Does subject character [d] match pattern literal [c] under [(?i)]? *)
Definition literal_ignorecase (c d : char) : bool :=
  let lo := ascii_tolower c in
  if is_ascii_lower lo
  then (d =? lo)%N || (d =? lo - 32)%N || extra_variant lo d
  else (d =? c)%N.

(** The pattern matches at the very start of the subject. *)
Fixpoint match_here (p t : text) : bool :=
  match p, t with
  | [], _ => true
  | _ :: _, [] => false
  | c :: p', d :: t' => literal_ignorecase c d && match_here p' t'
  end.

(** [re.search(p, t)]: the start of the leftmost match, if any. *)
Fixpoint search (p t : text) : option nat :=
  if match_here p t then Some 0
  else match t with
       | [] => None
       | _ :: t' => option_map S (search p t')
       end.

End Regex.

(** ** Section Locator (web_scraper.py, lines 41-60) *)

Definition job_desc_patterns : list text :=
  [ str "job description";
    str "about the job";
    str "about this role";
    str "responsibilities";
    str "what you'll do";
    str "requirements" ].

Definition excerpt_limit : Z := 5000.

(** The [for pattern in ...] loop with its early [return], followed by the
    fallback [return text[:5000]]. *)
Fixpoint locate_with (patterns : list text) (t : text) : text :=
  match patterns with
  | [] => slice t 0 excerpt_limit
  | pattern :: rest =>
      match Regex.search pattern t with
      | Some m =>
          let start_idx := Z.of_nat m in
          slice t start_idx (start_idx + excerpt_limit)
      | None => locate_with rest t
      end
  end.

Definition locate_section (t : text) : text :=
  locate_with job_desc_patterns t.

(** [t] has an occurrence of marker [p] at position [i]. *)
Definition occurs_at (p t : text) (i : nat) : Prop :=
  Regex.match_here p (skipn i t) = true.

(** ** Whitespace normalisation (web_scraper.py, lines 32-39) *)

Definition newline : text := [10%N].

(** The line boundaries of [str.splitlines]: LF, VT, FF, CR, FS, GS, RS,
    NEL, LINE SEPARATOR and PARAGRAPH SEPARATOR; CR LF counts once. *)
Definition is_linebreak (c : char) : bool :=
  ((10 <=? c)%N && (c <=? 13)%N)
  || ((28 <=? c)%N && (c <=? 30)%N)
  || (c =? 133)%N || (c =? 8232)%N || (c =? 8233)%N.

(** The characters removed by [str.strip()]. *)
Definition is_space (c : char) : bool :=
  ((9 <=? c)%N && (c <=? 13)%N)
  || ((28 <=? c)%N && (c <=? 32)%N)
  || (c =? 133)%N || (c =? 160)%N || (c =? 5760)%N
  || ((8192 <=? c)%N && (c <=? 8202)%N)
  || (c =? 8232)%N || (c =? 8233)%N || (c =? 8239)%N
  || (c =? 8287)%N || (c =? 12288)%N.

(** Put [c] in front of the first piece. *)
Definition push_front (c : char) (pieces : list text) : list text :=
  match pieces with
  | [] => [[c]]
  | p :: ps => (c :: p) :: ps
  end.

(** [t.splitlines()] *)
Fixpoint splitlines (t : text) : list text :=
  match t with
  | [] => []
  | c :: t' =>
      if is_linebreak c then
        match t' with
        | c' :: t'' =>
            if (c =? 13)%N && (c' =? 10)%N
            then [] :: splitlines t''
            else [] :: splitlines t'
        | [] => [[]]
        end
      else push_front c (splitlines t')
  end.

Fixpoint lstrip (t : text) : text :=
  match t with
  | [] => []
  | c :: t' => if is_space c then lstrip t' else t
  end.

Fixpoint rstrip (t : text) : text :=
  match t with
  | [] => []
  | c :: t' =>
      match rstrip t' with
      | [] => if is_space c then [] else [c]
      | r => c :: r
      end
  end.

(** [t.strip()] *)
Definition strip (t : text) : text := rstrip (lstrip t).

(** [t.split("  ")]: cut at every occurrence of two spaces, scanning from the
    left; the pieces may be empty. *)
Fixpoint split_double_space (t : text) : list text :=
  match t with
  | [] => [[]]
  | c :: t' =>
      match t' with
      | c' :: t'' =>
          if (c =? 32)%N && (c' =? 32)%N
          then [] :: split_double_space t''
          else push_front c (split_double_space t')
      | [] => [[c]]
      end
  end.

(** [sep.join(pieces)] *)
Fixpoint join (sep : text) (pieces : list text) : text :=
  match pieces with
  | [] => []
  | [p] => p
  | p :: ps => p ++ sep ++ join sep ps
  end.

(** Truthiness of a string. *)
Definition nonempty (t : text) : bool :=
  match t with
  | [] => false
  | _ :: _ => true
  end.

Definition normalize_whitespace (t : text) : text :=
  let lines := map strip (splitlines t) in
  let chunks :=
    flat_map (fun line => map strip (split_double_space line)) lines in
  join newline (filter nonempty chunks).

(** *** The normalisation as the specification words it

    "Runs of multiple spaces" are maximal runs of two or more U+0020.  With
    [skipping] set, the scan is inside such a run and drops further
    spaces. *)
Fixpoint split_space_runs (skipping : bool) (t : text) : list text :=
  match t with
  | [] => [[]]
  | c :: t' =>
      if skipping && (c =? 32)%N then split_space_runs true t'
      else
        match t' with
        | c' :: t'' =>
            if (c =? 32)%N && (c' =? 32)%N
            then [] :: split_space_runs true t''
            else push_front c (split_space_runs false t')
        | [] => [[c]]
        end
  end.

(** Split into lines, trim each line, split each line on runs of multiple
    spaces, discard the empty fragments, rejoin with single newlines. *)
Definition spec_normalize (t : text) : text :=
  let lines := map strip (splitlines t) in
  let fragments := flat_map (split_space_runs false) lines in
  join newline (filter nonempty fragments).

(** The same with every fragment trimmed before the empty ones are
    discarded. *)
Definition spec_normalize_trimmed (t : text) : text :=
  let lines := map strip (splitlines t) in
  let fragments :=
    flat_map (fun line => map strip (split_space_runs false line)) lines in
  join newline (filter nonempty fragments).

(** ** Content Fetcher (web_scraper.py, [scrape_job_description])

    The HTTP request and the HTML parser are the environment: [http_get]
    stands for [requests.get] followed by [raise_for_status] and
    [response.text], [visible_text] for building the soup, dropping the
    script and style elements and calling [get_text]. *)
Section Scraper.

Variable http_get : text -> result text.
Variable visible_text : text -> text.


End Scraper.

(** ** Text Extractor (pdf_parser.py)

    The PDF library is the environment.  A document is what reading it
    yields: an error, or its pages in order, where extracting the text of a
    page yields a string or an error. *)
Definition pdf_page := result text.
Definition pdf_file := result (list pdf_page).

(** The [for page in pdf_reader.pages] loop; [acc] is the variable [text]. *)
Fixpoint extract_pages (pages : list pdf_page) (acc : text) : result text :=
  match pages with
  | [] => Ok acc
  | page :: rest =>
      page_text <- page ;;
      extract_pages rest (acc ++ page_text ++ newline)
  end.

Definition extract_text_from_pdf (f : pdf_file) : result text :=
  try_except
    (pages <- f ;; extract_pages pages [])
    (fun e => Raise (str "Error extracting text from PDF: " ++ e)).

(** ** Exact substring search ([in], [str.find], [str.rfind]) *)

Fixpoint starts_with (sub t : text) : bool :=
  match sub, t with
  | [], _ => true
  | _ :: _, [] => false
  | c :: sub', d :: t' => (c =? d)%N && starts_with sub' t'
  end.

Fixpoint find_from (sub t : text) (i : Z) : Z :=
  if starts_with sub t then i
  else match t with
       | [] => (-1)%Z
       | _ :: t' => find_from sub t' (i + 1)%Z
       end.

(** [t.find(sub)]: the lowest index of an occurrence, or -1. *)
Definition find (sub t : text) : Z := find_from sub t 0%Z.

Fixpoint rfind_from (sub t : text) (i : Z) : Z :=
  match t with
  | [] => if starts_with sub [] then i else (-1)%Z
  | _ :: t' =>
      let later := rfind_from sub t' (i + 1)%Z in
      if (0 <=? later)%Z then later
      else if starts_with sub t then i else (-1)%Z
  end.

(** [t.rfind(sub)]: the highest index of an occurrence, or -1. *)
Definition rfind (sub t : text) : Z := rfind_from sub t 0%Z.

(** [sub in t] *)
Definition contains (sub t : text) : bool := (0 <=? find sub t)%Z.

(** ** JSON values and the decoder behind [json.loads]

    The decoder belongs to the language's library, not to the repository.
    It is written out so that the parsing step can be run on concrete
    responses.  Numbers keep their integer value, or their lexeme when they
    have a fraction or an exponent; error messages carry no position; the
    interpreter's recursion limit is not modelled. *)
Module Json.

#[local] Unset Elimination Schemes.

Inductive value : Type :=
| JNull
| JBool (b : bool)
| JInt (z : Z)
| JFloat (lexeme : text)
| JString (s : text)
| JArray (items : list value)
| JObject (pairs : list (text * value)).

#[local] Set Elimination Schemes.

(** [d[k] = v] on a dictionary kept in insertion order. *)
Fixpoint dict_set (d : list (text * value)) (k : text) (v : value)
  : list (text * value) :=
  match d with
  | [] => [(k, v)]
  | (k', v') :: d' =>
      if text_eqb k' k then (k', v) :: d' else (k', v') :: dict_set d' k v
  end.

(** [dict(pairs)] *)
Definition dict_of_pairs (pairs : list (text * value)) : list (text * value) :=
  fold_left (fun d kv => dict_set d (fst kv) (snd kv)) pairs [].

Definition is_ws (c : char) : bool :=
  (c =? 32)%N || (c =? 9)%N || (c =? 10)%N || (c =? 13)%N.

Fixpoint skip_ws (t : text) : text :=
  match t with
  | [] => []
  | c :: t' => if is_ws c then skip_ws t' else t
  end.

Definition is_digit (c : char) : bool := (48 <=? c)%N && (c <=? 57)%N.

Definition hex_digit (c : char) : option N :=
  if is_digit c then Some (c - 48)%N
  else if (97 <=? c)%N && (c <=? 102)%N then Some (c - 87)%N
  else if (65 <=? c)%N && (c <=? 70)%N then Some (c - 55)%N
  else None.

Definition hex4 (a b c d : char) : option N :=
  match hex_digit a, hex_digit b, hex_digit c, hex_digit d with
  | Some x, Some y, Some z, Some w =>
      Some (x * 4096 + y * 256 + z * 16 + w)%N
  | _, _, _, _ => None
  end.

Definition is_high_surrogate (u : N) : bool :=
  (55296 <=? u)%N && (u <=? 56319)%N.
Definition is_low_surrogate (u : N) : bool :=
  (56320 <=? u)%N && (u <=? 57343)%N.
Definition join_surrogates (hi lo : N) : N :=
  (65536 + (hi - 55296) * 1024 + (lo - 56320))%N.

Definition simple_escape (c : char) : option char :=
  if (c =? 34)%N then Some 34%N
  else if (c =? 92)%N then Some 92%N
  else if (c =? 47)%N then Some 47%N
  else if (c =? 98)%N then Some 8%N
  else if (c =? 102)%N then Some 12%N
  else if (c =? 110)%N then Some 10%N
  else if (c =? 114)%N then Some 13%N
  else if (c =? 116)%N then Some 9%N
  else None.

Definition unterminated_string : text :=
  str "Unterminated string starting at".
Definition invalid_control : text := str "Invalid control character at".
Definition invalid_escape : text := str "Invalid \escape".
Definition invalid_uescape : text := str "Invalid \uXXXX escape".
Definition expecting_value : text := str "Expecting value".
Definition expecting_name : text :=
  str "Expecting property name enclosed in double quotes".
Definition expecting_colon : text := str "Expecting ':' delimiter".
Definition expecting_comma : text := str "Expecting ',' delimiter".
Definition extra_data : text := str "Extra data".
Definition unexpected_bom : text :=
  str "Unexpected UTF-8 BOM (decode using utf-8-sig)".
Definition recursion_error : text :=
  str "maximum recursion depth exceeded".

(** The body of a string literal, after its opening quote (strict mode):
    the decoded string and the input after the closing quote. *)
Fixpoint scan_string (t : text) : result (text * text) :=
  match t with
  | [] => Raise unterminated_string
  | c :: t1 =>
      if (c =? 34)%N then Ok ([], t1)
      else if (c =? 92)%N then
        match t1 with
        | [] => Raise unterminated_string
        | e :: t2 =>
            if (e =? 117)%N then
              match t2 with
              | h1 :: h2 :: h3 :: h4 :: t3 =>
                  match hex4 h1 h2 h3 h4 with
                  | None => Raise invalid_uescape
                  | Some u =>
                      match t3 with
                      | [] => Raise invalid_uescape
                      | b :: v :: l1 :: l2 :: l3 :: l4 :: t4 =>
                          if is_high_surrogate u && nonempty t4
                             && (b =? 92)%N && (v =? 117)%N
                          then
                            match hex4 l1 l2 l3 l4 with
                            | None => Raise invalid_uescape
                            | Some u2 =>
                                if is_low_surrogate u2 then
                                  match scan_string t4 with
                                  | Ok (s, r) =>
                                      Ok (join_surrogates u u2 :: s, r)
                                  | Raise err => Raise err
                                  end
                                else
                                  match scan_string t3 with
                                  | Ok (s, r) => Ok (u :: s, r)
                                  | Raise err => Raise err
                                  end
                            end
                          else
                            match scan_string t3 with
                            | Ok (s, r) => Ok (u :: s, r)
                            | Raise err => Raise err
                            end
                      | _ =>
                          match scan_string t3 with
                          | Ok (s, r) => Ok (u :: s, r)
                          | Raise err => Raise err
                          end
                      end
                  end
              | _ => Raise invalid_uescape
              end
            else
              match simple_escape e with
              | None => Raise invalid_escape
              | Some d =>
                  match scan_string t2 with
                  | Ok (s, r) => Ok (d :: s, r)
                  | Raise err => Raise err
                  end
              end
        end
      else if (c <? 32)%N then Raise invalid_control
      else
        match scan_string t1 with
        | Ok (s, r) => Ok (c :: s, r)
        | Raise err => Raise err
        end
  end.

Fixpoint take_digits (t : text) : text * text :=
  match t with
  | [] => ([], [])
  | c :: t' =>
      if is_digit c
      then let '(ds, r) := take_digits t' in (c :: ds, r)
      else ([], t)
  end.

Definition digits_value (ds : text) : Z :=
  fold_left (fun acc c => (acc * 10 + Z.of_N (c - 48))%Z) ds 0%Z.

(** The integer part of a number: a single [0], or a non-zero digit and the
    digits after it. *)
Definition int_part (t : text) : option (text * text) :=
  match t with
  | [] => None
  | c :: t' =>
      if (c =? 48)%N then Some ([c], t')
      else if (49 <=? c)%N && (c <=? 57)%N
      then let '(ds, r) := take_digits t' in Some (c :: ds, r)
      else None
  end.

(** An optional fraction: a dot and at least one digit. *)
Definition frac_part (t : text) : text * text :=
  match t with
  | c :: t' =>
      if (c =? 46)%N then
        match take_digits t' with
        | ([], _) => ([], t)
        | (ds, r) => (c :: ds, r)
        end
      else ([], t)
  | [] => ([], t)
  end.

Definition sign_part (t : text) : text * text :=
  match t with
  | c :: t' => if (c =? 43)%N || (c =? 45)%N then ([c], t') else ([], t)
  | [] => ([], t)
  end.

(** An optional exponent: [e] or [E], an optional sign, at least one
    digit. *)
Definition exp_part (t : text) : text * text :=
  match t with
  | c :: t' =>
      if (c =? 101)%N || (c =? 69)%N then
        let '(sg, t'') := sign_part t' in
        match take_digits t'' with
        | ([], _) => ([], t)
        | (ds, r) => (c :: sg ++ ds, r)
        end
      else ([], t)
  | [] => ([], t)
  end.

(** A number at the start of the input, if there is one. *)
Definition match_number (t : text) : option (value * text) :=
  let '(neg, t1) :=
    match t with
    | c :: t' => if (c =? 45)%N then (true, t') else (false, t)
    | [] => (false, t)
    end in
  match int_part t1 with
  | None => None
  | Some (ip, r1) =>
      let '(fp, r2) := frac_part r1 in
      let '(ep, r3) := exp_part r2 in
      if nonempty fp || nonempty ep
      then Some (JFloat ((if neg then [45%N] else []) ++ ip ++ fp ++ ep), r3)
      else Some (JInt (if neg then - digits_value ip else digits_value ip)%Z,
                 r3)
  end.

(** A keyword at the start of the input. *)
Definition keyword (kw : string) (v : value) (t : text)
  : option (value * text) :=
  if starts_with (str kw) t
  then Some (v, skipn (List.length (str kw)) t)
  else None.

(** The values that are neither strings nor containers. *)
Definition scan_atom (t : text) : result (value * text) :=
  let fallback :=
    match match_number t with
    | Some vr => Ok vr
    | None => Raise expecting_value
    end in
  let try_keyword kw v :=
    match keyword kw v t with
    | Some vr => Ok vr
    | None => fallback
    end in
  match t with
  | [] => Raise expecting_value
  | c :: _ =>
      if (c =? 110)%N then try_keyword "null"%string JNull
      else if (c =? 116)%N then try_keyword "true"%string (JBool true)
      else if (c =? 102)%N then try_keyword "false"%string (JBool false)
      else if (c =? 78)%N
      then try_keyword "NaN"%string (JFloat (str "NaN"))
      else if (c =? 73)%N
      then try_keyword "Infinity"%string (JFloat (str "Infinity"))
      else if (c =? 45)%N
      then try_keyword "-Infinity"%string (JFloat (str "-Infinity"))
      else fallback
  end.

(** One value at the start of the input.  [fuel] bounds the depth of the
    recursion; [loads] supplies more than the input can use. *)
Fixpoint scan_once (fuel : nat) (t : text) : result (value * text) :=
  match fuel with
  | O => Raise recursion_error
  | S fuel' =>
      match t with
      | [] => Raise expecting_value
      | c :: t' =>
          if (c =? 34)%N then
            match scan_string t' with
            | Ok (s, r) => Ok (JString s, r)
            | Raise e => Raise e
            end
          else if (c =? 123)%N then
            match skip_ws t' with
            | [] => Raise expecting_name
            | d :: r =>
                if (d =? 125)%N then Ok (JObject [], r)
                else parse_members fuel' [] (d :: r)
            end
          else if (c =? 91)%N then
            match skip_ws t' with
            | [] => Raise expecting_value
            | d :: r =>
                if (d =? 93)%N then Ok (JArray [], r)
                else parse_elements fuel' [] (d :: r)
            end
          else scan_atom t
      end
  end

(** The members of an object, from a key on; [acc] is the dictionary built
    so far. *)
with parse_members (fuel : nat) (acc : list (text * value)) (t : text)
  : result (value * text) :=
  match fuel with
  | O => Raise recursion_error
  | S fuel' =>
      match t with
      | [] => Raise expecting_name
      | c :: t1 =>
          if (c =? 34)%N then
            match scan_string t1 with
            | Raise e => Raise e
            | Ok (key, t2) =>
                match skip_ws t2 with
                | [] => Raise expecting_colon
                | c2 :: t3 =>
                    if (c2 =? 58)%N then
                      match scan_once fuel' (skip_ws t3) with
                      | Raise e => Raise e
                      | Ok (v, t4) =>
                          let acc' := dict_set acc key v in
                          match skip_ws t4 with
                          | [] => Raise expecting_comma
                          | c3 :: t5 =>
                              if (c3 =? 125)%N then Ok (JObject acc', t5)
                              else if (c3 =? 44)%N
                              then parse_members fuel' acc' (skip_ws t5)
                              else Raise expecting_comma
                          end
                      end
                    else Raise expecting_colon
                end
            end
          else Raise expecting_name
      end
  end

(** The elements of an array, from a value on; [acc] holds the elements
    read so far, in order. *)
with parse_elements (fuel : nat) (acc : list value) (t : text)
  : result (value * text) :=
  match fuel with
  | O => Raise recursion_error
  | S fuel' =>
      match scan_once fuel' t with
      | Raise e => Raise e
      | Ok (v, t1) =>
          let acc' := acc ++ [v] in
          match skip_ws t1 with
          | [] => Raise expecting_comma
          | c :: t2 =>
              if (c =? 93)%N then Ok (JArray acc', t2)
              else if (c =? 44)%N
              then parse_elements fuel' acc' (skip_ws t2)
              else Raise expecting_comma
          end
      end
  end.

(** [json.loads(s)] *)
Definition loads (s : text) : result value :=
  if starts_with [65279%N] s then Raise unexpected_bom
  else
    match scan_once (S (2 * List.length s)) (skip_ws s) with
    | Raise e => Raise e
    | Ok (obj, rest) =>
        match skip_ws rest with
        | [] => Ok obj
        | _ :: _ => Raise extra_data
        end
    end.

End Json.

(** ** Analysis Client (bedrock_agent.py)

    A Python [float] that the code only passes on is kept as the rational
    written in the source. *)
Module Bedrock.

Import Json.

Record content_block := { block_text : text }.

Record message := { role : text; content : list content_block }.

Record inference_config :=
  { maxTokens : Z; temperature : Q; topP : Q }.

(** The two shapes of the local variable [request_body]. *)
Inductive request_body :=
| NovaBody (messages : list message) (inferenceConfig : inference_config)
| PromptBody (prompt : text) (max_tokens : Z) (temperature : Q).

(** The keyword arguments of one [bedrock_client.converse] call. *)
Record converse_call :=
  { modelId : text;
    call_messages : list message;
    call_inferenceConfig : inference_config }.

(** [response["output"]["message"]] of a successful call. *)
Record converse_response := { output_message : message }.

(** What the process has done so far: the requests sent to the service, in
    order, and the lines printed. *)
Record world :=
  { sent : list converse_call; printed : list text }.

Definition io (A : Type) : Type := world -> result A * world.










Definition raw_analysis_key : text := str "raw_analysis".
Definition suggestions_key : text := str "suggestions".

(** *** The parsing step after the model call

    [analyze_cv], lines 106-118. *)
Definition analyze_cv_parse (response_text : text) : result value :=
  try_except
    (let json_start := find (str "{") response_text in
     let json_end := (rfind (str "}") response_text + 1)%Z in
     if (json_start >=? 0)%Z && (json_end >? json_start)%Z then
       let json_str := slice response_text json_start json_end in
       loads json_str
     else
       Ok (JObject [(raw_analysis_key, JString response_text)]))
    (fun _ => Ok (JObject [(raw_analysis_key, JString response_text)])).

(** [analyze_job_description], lines 150-162. *)
Definition analyze_job_description_parse (response_text : text)
  : result value :=
  try_except
    (let json_start := find (str "{") response_text in
     let json_end := (rfind (str "}") response_text + 1)%Z in
     if (json_start >=? 0)%Z && (json_end >? json_start)%Z then
       let json_str := slice response_text json_start json_end in
       loads json_str
     else
       Ok (JObject [(raw_analysis_key, JString response_text)]))
    (fun _ => Ok (JObject [(raw_analysis_key, JString response_text)])).

(** [generate_cv_improvement_suggestions], lines 198-210. *)
Definition generate_cv_improvement_suggestions_parse (response_text : text)
  : result value :=
  try_except
    (let json_start := find (str "{") response_text in
     let json_end := (rfind (str "}") response_text + 1)%Z in
     if (json_start >=? 0)%Z && (json_end >? json_start)%Z then
       let json_str := slice response_text json_start json_end in
       loads json_str
     else
       Ok (JObject [(suggestions_key, JString response_text)]))
    (fun _ => Ok (JObject [(suggestions_key, JString response_text)])).

(** [response["output"]["message"]["content"][0]["text"]] *)
Definition first_text (response : converse_response) : result text :=
  match content (output_message response) with
  | [] => Raise (str "list index out of range")
  | block :: _ => Ok (block_text block)
  end.

Section Client.

(** The remote service: what a [converse] call answers. *)
Variable service : converse_call -> result converse_response.

(** [json.dumps(v, indent=2)], used only to build a prompt. *)
Variable dumps : value -> text.

Definition converse (call : converse_call) : io converse_response :=
  fun w =>
    (service call, {| sent := sent w ++ [call]; printed := printed w |}).

Definition print (line : text) : io unit :=
  fun w => (Ok tt, {| sent := sent w; printed := printed w ++ [line] |}).

Definition invoke_model (prompt model_id : text) (max_tokens : Z)
           (temperature : Q) : io text :=
  fun w =>
    let message_list :=
      [ {| role := str "user";
           content := [ {| block_text := prompt |} ] |} ] in
    let request_body :=
      if contains (str "amazon.nova") model_id then
        NovaBody message_list
                 {| maxTokens := max_tokens;
                    temperature := temperature;
                    topP := 0.9%Q |}
      else
        PromptBody prompt max_tokens temperature in
    match converse {| modelId := model_id;
                      call_messages := message_list;
                      call_inferenceConfig :=
                        {| maxTokens := max_tokens;
                           temperature := temperature;
                           topP := 0.9%Q |} |} w with
    | (Raise e, w1) =>
        (Raise e, snd (print (str "Error invoking model: " ++ e) w1))
    | (Ok response, w1) => (first_text response, w1)
    end.

(** The request body that [invoke_model] builds and then leaves aside. *)
Definition built_request_body (prompt model_id : text) (max_tokens : Z)
           (temperature : Q) : request_body :=
  let message_list :=
    [ {| role := str "user";
         content := [ {| block_text := prompt |} ] |} ] in
  if contains (str "amazon.nova") model_id then
    NovaBody message_list
             {| maxTokens := max_tokens;
                temperature := temperature;
                topP := 0.9%Q |}
  else
    PromptBody prompt max_tokens temperature.




End Client.

End Bedrock.

(** ** Vocabulary for the statements *)

(** [i] is the position of the first [c] in [t]. *)
Definition first_index (c : char) (t : text) (i : nat) : Prop :=
  nth_error t i = Some c /\ forall k, k < i -> nth_error t k <> Some c.

(** [j] is the position of the last [c] in [t]. *)
Definition last_index (c : char) (t : text) (j : nat) : Prop :=
  nth_error t j = Some c /\ forall k, j < k -> nth_error t k <> Some c.

Definition open_brace : char := 123%N.
Definition close_brace : char := 125%N.
Definition dquote : text := [34%N].

(** The three parsing steps, each with its fallback key. *)
Definition parsing_steps : list (text * (text -> result Json.value)) :=
  [ (Bedrock.raw_analysis_key, Bedrock.analyze_cv_parse);
    (Bedrock.raw_analysis_key, Bedrock.analyze_job_description_parse);
    (Bedrock.suggestions_key,
     Bedrock.generate_cv_improvement_suggestions_parse) ].

(** The single user-role message that carries the prompt. *)
Definition user_message (prompt : text) : Bedrock.message :=
  {| Bedrock.role := str "user";
     Bedrock.content := [ {| Bedrock.block_text := prompt |} ] |}.

(** The request that goes out for a prompt, whatever the model family. *)
Definition fixed_request (prompt model_id : text) (max_tokens : Z)
           (temperature : Q) : Bedrock.converse_call :=
  {| Bedrock.modelId := model_id;
     Bedrock.call_messages := [user_message prompt];
     Bedrock.call_inferenceConfig :=
       {| Bedrock.maxTokens := max_tokens;
          Bedrock.temperature := temperature;
          Bedrock.topP := 0.9%Q |} |}.

(** The body shape of a request that was sent: its message list and its
    inference configuration. *)
Definition sent_shape (call : Bedrock.converse_call) : Bedrock.request_body :=
  Bedrock.NovaBody (Bedrock.call_messages call)
                   (Bedrock.call_inferenceConfig call).

(** ** Vocabulary for further properties *)

(** ASCII case changes of a whole text. *)
Definition ascii_upper (c : char) : char :=
  if Regex.is_ascii_lower c then (c - 32)%N else c.

Definition ascii_lower (c : char) : char :=
  if Regex.is_ascii_upper c then (c + 32)%N else c.

(** The characters of a text that are not whitespace, in order. *)
Definition visible (t : text) : text :=
  filter (fun c => negb (is_space c)) t.

(** Two U+0020 in a row somewhere in the text. *)
Fixpoint has_double_space (t : text) : bool :=
  match t with
  | [] => false
  | c :: t' =>
      match t' with
      | c' :: _ => ((c =? 32)%N && (c' =? 32)%N) || has_double_space t'
      | [] => false
      end
  end.

(** A line as the normalisation leaves it: not empty, no whitespace at
    either end, no two spaces in a row, no line boundary inside. *)
Definition clean_line (l : text) : Prop :=
  nonempty l = true
  /\ strip l = l
  /\ has_double_space l = false
  /\ Forall (fun c => is_linebreak c = false) l.


(** * Properties *)

(** ** Slices *)

Lemma firstn_min_length (A : Type) (n : nat) (l : list A) :
  firstn (Nat.min n (List.length l)) l = firstn n l.
Proof.
  destruct (Nat.le_ge_cases n (List.length l)) as [Hle | Hge].
  - now rewrite Nat.min_l.
  - rewrite Nat.min_r by assumption.
    now rewrite !firstn_all2 by lia.
Qed.

(** A slice [t[m : m + k]] with a non-negative start and width is the first
    [k] characters of what is left after dropping [m]. *)
Lemma slice_window (t : text) (m : nat) (k : Z) :
  (0 <= k)%Z ->
  slice t (Z.of_nat m) (Z.of_nat m + k) = firstn (Z.to_nat k) (skipn m t).
Proof.
  intros Hk. unfold slice, slice_bound, len.
  destruct (Z.ltb_spec (Z.of_nat m) 0) as [Hneg | _]; [lia |].
  destruct (Z.ltb_spec (Z.of_nat m + k) 0) as [Hneg | _]; [lia |].
  destruct (Nat.le_ge_cases m (List.length t)) as [Hle | Hge].
  - replace (Z.to_nat (Z.min (Z.of_nat m) (Z.of_nat (List.length t)))) with m
      by lia.
    replace (Z.to_nat
               (Z.min (Z.of_nat m + k) (Z.of_nat (List.length t))
                - Z.min (Z.of_nat m) (Z.of_nat (List.length t))))
      with (Nat.min (Z.to_nat k) (List.length (skipn m t)))
      by (rewrite length_skipn; lia).
    apply firstn_min_length.
  - replace (Z.to_nat
               (Z.min (Z.of_nat m + k) (Z.of_nat (List.length t))
                - Z.min (Z.of_nat m) (Z.of_nat (List.length t))))
      with 0 by lia.
    rewrite (skipn_all2 t Hge). now rewrite firstn_nil.
Qed.

Lemma slice_prefix (t : text) (k : Z) :
  (0 <= k)%Z -> slice t 0 k = firstn (Z.to_nat k) t.
Proof.
  intros Hk. apply (slice_window t 0 k Hk).
Qed.

Lemma limit_nonneg : (0 <= excerpt_limit)%Z.
Proof. unfold excerpt_limit. lia. Qed.

(** ** The matcher *)

(** A match only reads the first [length p] characters of the subject. *)
Lemma match_here_firstn (p t : text) (n : nat) :
  List.length p <= n ->
  Regex.match_here p (firstn n t) = Regex.match_here p t.
Proof.
  revert t n. induction p as [| c p IH]; intros t n Hn.
  - reflexivity.
  - destruct n as [| n]; [simpl in Hn; lia |].
    destruct t as [| d t]; [reflexivity |].
    simpl. rewrite IH by (simpl in Hn; lia). reflexivity.
Qed.

(** Cutting the subject short can only lose matches. *)
Lemma match_here_firstn_true (p t : text) (n : nat) :
  Regex.match_here p (firstn n t) = true -> Regex.match_here p t = true.
Proof.
  revert t n. induction p as [| c p IH]; intros t n H.
  - reflexivity.
  - destruct n as [| n]; [discriminate |].
    destruct t as [| d t]; [discriminate |].
    simpl in *. apply andb_true_iff in H. destruct H as [Hc Hp].
    rewrite Hc. simpl. eapply IH; eassumption.
Qed.

Lemma search_Some (p t : text) (m : nat) :
  Regex.search p t = Some m ->
  occurs_at p t m /\ m <= List.length t
  /\ forall k, k < m -> ~ occurs_at p t k.
Proof.
  unfold occurs_at. revert m. induction t as [| d t IH]; intros m H.
  - simpl in H. destruct (Regex.match_here p []) eqn:E; [| discriminate].
    injection H as <-. repeat split; [assumption | lia | intros; lia].
  - simpl in H. destruct (Regex.match_here p (d :: t)) eqn:E.
    + injection H as <-. repeat split; [assumption | lia | intros; lia].
    + destruct (Regex.search p t) as [m' |] eqn:Es; [| discriminate].
      injection H as <-. destruct (IH m' eq_refl) as (Hm & Hl & Hmin).
      repeat split.
      * exact Hm.
      * simpl. lia.
      * intros [| k] Hk; simpl.
        -- rewrite E. discriminate.
        -- apply Hmin. lia.
Qed.

Lemma search_None (p t : text) :
  Regex.search p t = None <-> forall i, ~ occurs_at p t i.
Proof.
  unfold occurs_at. induction t as [| d t IH]; simpl.
  - destruct (Regex.match_here p []) eqn:E; split.
    + discriminate.
    + intros H. exfalso. apply (H 0). exact E.
    + intros _ i. rewrite skipn_nil. rewrite E. discriminate.
    + reflexivity.
  - destruct (Regex.match_here p (d :: t)) eqn:E; split.
    + discriminate.
    + intros H. exfalso. apply (H 0). exact E.
    + intros H [| i]; simpl.
      * rewrite E. discriminate.
      * apply IH. destruct (Regex.search p t); [discriminate | reflexivity].
    + intros H. replace (Regex.search p t) with (@None nat); [reflexivity |].
      symmetry. apply IH. intros i. apply (H (S i)).
Qed.

(** An occurrence anywhere makes the search succeed, at or before it. *)
Lemma occurs_search (p t : text) (i : nat) :
  occurs_at p t i ->
  exists m, Regex.search p t = Some m /\ m <= i.
Proof.
  intros Hi. destruct (Regex.search p t) as [m |] eqn:E.
  - exists m. split; [reflexivity |].
    destruct (search_Some _ _ _ E) as (_ & _ & Hmin).
    destruct (Nat.le_gt_cases m i) as [Hle | Hgt]; [exact Hle |].
    exfalso. exact (Hmin i Hgt Hi).
  - exfalso. exact (proj1 (search_None p t) E i Hi).
Qed.

(** An occurrence inside a window of the text is an occurrence in the
    text. *)
Lemma occurs_window (p t : text) (s n i : nat) :
  occurs_at p (firstn n (skipn s t)) i -> occurs_at p t (s + i).
Proof.
  unfold occurs_at. rewrite skipn_firstn_comm, skipn_skipn.
  rewrite (Nat.add_comm i s). apply match_here_firstn_true.
Qed.

Lemma search_None_window (p t : text) (s n : nat) :
  Regex.search p t = None ->
  Regex.search p (firstn n (skipn s t)) = None.
Proof.
  intros H. apply search_None. intros i Hi.
  exact (proj1 (search_None p t) H _ (occurs_window _ _ _ _ _ Hi)).
Qed.

(** ** Section Locator *)

(** Whatever the marker list, the result is a window of the text: what is
    left after dropping some prefix, cut at the limit. *)
Lemma locate_with_window (patterns : list text) (t : text) :
  exists s,
    locate_with patterns t = firstn (Z.to_nat excerpt_limit) (skipn s t).
Proof.
  induction patterns as [| p ps IH]; simpl.
  - exists 0. apply slice_prefix, limit_nonneg.
  - destruct (Regex.search p t) as [m |].
    + exists m. apply slice_window, limit_nonneg.
    + exact IH.
Qed.

Lemma locate_with_length (patterns : list text) (t : text) :
  (len (locate_with patterns t) <= excerpt_limit)%Z.
Proof.
  destruct (locate_with_window patterns t) as [s ->].
  unfold len. pose proof (firstn_le_length (Z.to_nat excerpt_limit) (skipn s t)).
  pose proof limit_nonneg. lia.
Qed.

(** With no marker anywhere, the loop falls through to the prefix. *)
Lemma locate_with_no_match (patterns : list text) (t : text) :
  (forall p, In p patterns -> Regex.search p t = None) ->
  locate_with patterns t = firstn (Z.to_nat excerpt_limit) t.
Proof.
  induction patterns as [| p ps IH]; intros Hnone; simpl.
  - apply slice_prefix, limit_nonneg.
  - rewrite (Hnone p (or_introl eq_refl)).
    apply IH. intros q Hq. apply Hnone. now right.
Qed.

(** The first marker of the list that occurs decides the result. *)
Lemma locate_with_first (before after : list text) (p t : text) (m : nat) :
  (forall q, In q before -> Regex.search q t = None) ->
  Regex.search p t = Some m ->
  locate_with (before ++ p :: after) t
  = firstn (Z.to_nat excerpt_limit) (skipn m t).
Proof.
  induction before as [| q qs IH]; intros Hnone Hp; simpl.
  - rewrite Hp. apply slice_window, limit_nonneg.
  - rewrite (Hnone q (or_introl eq_refl)).
    apply IH; [| exact Hp]. intros r Hr. apply Hnone. now right.
Qed.

(** Locating again inside a located excerpt changes nothing, for any list
    of markers that fit in the limit. *)
Lemma locate_with_idempotent (patterns : list text) (t : text) :
  Forall (fun p => (len p <= excerpt_limit)%Z) patterns ->
  locate_with patterns (locate_with patterns t) = locate_with patterns t.
Proof.
  intros Hfit. pose proof limit_nonneg as Hlim.
  induction Hfit as [| p ps Hp Hps IH]; simpl.
  - rewrite !slice_prefix by exact Hlim. now rewrite firstn_firstn, Nat.min_id.
  - destruct (Regex.search p t) as [m |] eqn:E.
    + rewrite slice_window by exact Hlim.
      destruct (search_Some _ _ _ E) as (Hocc & _ & _).
      assert (Hhere :
                Regex.match_here
                  p (firstn (Z.to_nat excerpt_limit) (skipn m t)) = true).
      { rewrite match_here_firstn; [exact Hocc |]. unfold len in Hp. lia. }
      assert (Hs :
                Regex.search
                  p (firstn (Z.to_nat excerpt_limit) (skipn m t)) = Some 0).
      { destruct (firstn (Z.to_nat excerpt_limit) (skipn m t));
          simpl; simpl in Hhere; now rewrite Hhere. }
      rewrite Hs. change (Z.of_nat 0) with 0%Z.
      rewrite slice_prefix by exact Hlim.
      now rewrite firstn_firstn, Nat.min_id.
    + destruct (locate_with_window ps t) as [s Hw].
      rewrite Hw at 1. rewrite (search_None_window p t s _ E).
      exact IH.
Qed.

Lemma job_desc_patterns_fit :
  Forall (fun p => (len p <= excerpt_limit)%Z) job_desc_patterns.
Proof.
  unfold job_desc_patterns.
  repeat (constructor; [vm_compute; discriminate |]). constructor.
Qed.

(** No character matches both [j] and [r] when case is ignored. *)
Lemma literal_j_not_r (d : char) :
  Regex.literal_ignorecase 106%N d = true ->
  Regex.literal_ignorecase 114%N d = true -> False.
Proof.
  unfold Regex.literal_ignorecase. simpl.
  unfold Regex.extra_variant. simpl.
  rewrite !orb_false_r.
  intros Hj Hr.
  apply orb_true_iff in Hj. apply orb_true_iff in Hr.
  destruct Hj as [Hj | Hj]; destruct Hr as [Hr | Hr];
    apply N.eqb_eq in Hj; apply N.eqb_eq in Hr; subst d; discriminate.
Qed.

Lemma occurs_head (c : char) (p t : text) (i : nat) :
  occurs_at (c :: p) t i ->
  exists d r, skipn i t = d :: r /\ Regex.literal_ignorecase c d = true.
Proof.
  unfold occurs_at. destruct (skipn i t) as [| d r]; simpl; intros H.
  - discriminate.
  - apply andb_true_iff in H. exists d, r. now split.
Qed.

Lemma limit_positive : exists n, Z.to_nat excerpt_limit = S n.
Proof.
  exists (Z.to_nat (excerpt_limit - 1)). unfold excerpt_limit. lia.
Qed.

(** C1. When the text has a "responsibilities" marker at an earlier position
    and a "job description" marker at a later one (case ignored), the
    excerpt starts at the first "job description" occurrence: it is
    [t[j0 : j0 + 5000]] for the leftmost such occurrence [j0], which is the
    given one when no other precedes it, and it is not the excerpt that
    starts at the "responsibilities" occurrence. *)
Theorem C1_job_description_wins (t : text) (i j : nat) :
  i < j ->
  occurs_at (str "responsibilities") t i ->
  occurs_at (str "job description") t j ->
  exists j0,
    j0 <= j
    /\ occurs_at (str "job description") t j0
    /\ (forall k, k < j0 -> ~ occurs_at (str "job description") t k)
    /\ ((forall k, k < j -> ~ occurs_at (str "job description") t k) ->
        j0 = j)
    /\ locate_section t = slice t (Z.of_nat j0) (Z.of_nat j0 + 5000)
    /\ locate_section t <> slice t (Z.of_nat i) (Z.of_nat i + 5000).
Proof.
  intros _ Hresp Hjob.
  destruct (occurs_search _ _ _ Hjob) as (j0 & Hsearch & Hle).
  destruct (search_Some _ _ _ Hsearch) as (Hocc & _ & Hmin).
  assert (Hloc : locate_section t
                 = firstn (Z.to_nat excerpt_limit) (skipn j0 t)).
  { apply (locate_with_first [] _ _ t j0); [intros q [] | exact Hsearch]. }
  exists j0. repeat split; try assumption.
  - intros Hfirst. destruct (Nat.eq_dec j0 j) as [| Hne]; [assumption |].
    exfalso. apply (Hfirst j0); [lia | exact Hocc].
  - rewrite Hloc. symmetry. apply (slice_window t j0 5000). lia.
  - rewrite Hloc.
    rewrite (slice_window t i 5000) by lia.
    change (Z.to_nat 5000) with (Z.to_nat excerpt_limit).
    destruct limit_positive as [n ->].
    change (str "job description")
      with (106%N :: str "ob description") in Hocc.
    change (str "responsibilities")
      with (114%N :: str "esponsibilities") in Hresp.
    destruct (occurs_head _ _ _ _ Hocc) as (d & r & -> & Hd).
    destruct (occurs_head _ _ _ _ Hresp) as (d' & r' & -> & Hd').
    simpl. intros Heq. injection Heq as -> _.
    exact (literal_j_not_r _ Hd Hd').
Qed.

(** C2. The excerpt is never longer than 5000 characters, on the marker
    path and on the fallback path alike. *)
Theorem C2_excerpt_bounded (t : text) :
  (len (locate_section t) <= 5000)%Z.
Proof.
  exact (locate_with_length job_desc_patterns t).
Qed.

(** C3. A text shorter than 5000 characters in which none of the markers
    occurs (case ignored) is returned whole and unchanged. *)
Theorem C3_short_text_unchanged (t : text) :
  (len t < 5000)%Z ->
  (forall p, In p job_desc_patterns -> forall i, ~ occurs_at p t i) ->
  locate_section t = t.
Proof.
  intros Hshort Hnone. unfold locate_section.
  rewrite locate_with_no_match.
  - apply firstn_all2. unfold len, excerpt_limit in *. lia.
  - intros p Hp. apply search_None. exact (Hnone p Hp).
Qed.

(** What the excerpt looks like, for any list of markers that fit in the
    limit: either some marker occurs at its very start and no marker
    before that one in the list occurs anywhere in it, or no marker occurs
    in it and it is within the limit. *)
Lemma locate_with_shape (patterns : list text) (t : text) :
  Forall (fun p => (len p <= excerpt_limit)%Z) patterns ->
  (exists before p after,
      patterns = before ++ p :: after
      /\ (forall q, In q before ->
                    forall i, ~ occurs_at q (locate_with patterns t) i)
      /\ occurs_at p (locate_with patterns t) 0)
  \/ ((forall q, In q patterns ->
                 forall i, ~ occurs_at q (locate_with patterns t) i)
      /\ (len (locate_with patterns t) <= excerpt_limit)%Z).
Proof.
  intros Hfit. induction Hfit as [| p ps Hp Hps IH].
  - right. split; [intros q [] |]. apply (locate_with_length [] t).
  - simpl. destruct (Regex.search p t) as [m |] eqn:E.
    + left. exists [], p, ps. split; [reflexivity |].
      split; [intros q [] |].
      rewrite slice_window by apply limit_nonneg.
      destruct (search_Some _ _ _ E) as (Hocc & _ & _).
      unfold occurs_at. cbn [skipn].
      rewrite match_here_firstn; [exact Hocc |].
      pose proof limit_nonneg. unfold len in Hp. lia.
    + assert (Hp_absent : forall i, ~ occurs_at p (locate_with ps t) i).
      { destruct (locate_with_window ps t) as [s ->].
        apply search_None. now apply search_None_window. }
      destruct IH as [(before & q & after & -> & Hbefore & Hq) | [Hnone Hl]].
      * left. exists (p :: before), q, after. split; [reflexivity |].
        split; [| exact Hq].
        intros r [<- | Hr]; [exact Hp_absent | now apply Hbefore].
      * right. split; [| exact Hl].
        intros r [<- | Hr]; [exact Hp_absent | now apply Hnone].
Qed.

(** C10. The Section Locator is idempotent: run on its own output, it
    returns that output.  The reason is the shape of the output: either it
    begins with the first marker of the priority list that occurs anywhere
    in it, or no marker occurs in it and it has at most 5000 characters. *)
Theorem C10_locate_idempotent (t : text) :
  locate_section (locate_section t) = locate_section t
  /\ ((exists before p after,
          job_desc_patterns = before ++ p :: after
          /\ (forall q, In q before ->
                        forall i, ~ occurs_at q (locate_section t) i)
          /\ occurs_at p (locate_section t) 0)
      \/ ((forall q, In q job_desc_patterns ->
                     forall i, ~ occurs_at q (locate_section t) i)
          /\ (len (locate_section t) <= 5000)%Z)).
Proof.
  split.
  - exact (locate_with_idempotent job_desc_patterns t job_desc_patterns_fit).
  - exact (locate_with_shape job_desc_patterns t job_desc_patterns_fit).
Qed.

(** The end-to-end scenario of the specification: "requirements" comes
    first in the page, "job description" comes first in the list. *)
Example locate_end_to_end :
  locate_section
    (str "Welcome. Requirements: 3 years experience. "
     ++ str "Job Description: Build things.")
  = str "Job Description: Build things.".
Proof. reflexivity. Qed.

Lemma C1_job_description_wins_witness :
  exists j0,
    locate_section
      (str "Responsibilities: ship. Job Description: build things.")
    = slice (str "Responsibilities: ship. Job Description: build things.")
            (Z.of_nat j0) (Z.of_nat j0 + 5000)
    /\ j0 <= 24.
Proof.
  destruct (C1_job_description_wins
              (str "Responsibilities: ship. Job Description: build things.")
              0 24)
    as (j0 & Hle & _ & _ & _ & Hloc & _).
  - lia.
  - reflexivity.
  - reflexivity.
  - exists j0. split; assumption.
Defined.

Lemma C3_short_text_unchanged_witness :
  locate_section (str "Welcome to our careers page.")
  = str "Welcome to our careers page.".
Proof.
  apply C3_short_text_unchanged.
  - reflexivity.
  - intros p Hp. apply search_None.
    simpl in Hp.
    repeat (destruct Hp as [<- | Hp]; [reflexivity |]).
    destruct Hp.
Defined.

(** ** Text Extractor *)

Lemma extract_pages_all_ok (texts : list text) (acc : text) :
  extract_pages (map Ok texts) acc
  = Ok (acc ++ List.concat (map (fun s => s ++ newline) texts)).
Proof.
  revert acc. induction texts as [| s texts IH]; intros acc; simpl.
  - now rewrite app_nil_r.
  - rewrite IH. now rewrite <- !app_assoc.
Qed.

Lemma extract_pages_first_error
      (before : list text) (cause : text) (after : list pdf_page)
      (acc : text) :
  extract_pages (map Ok before ++ Raise cause :: after) acc = Raise cause.
Proof.
  revert acc. induction before as [| s before IH]; intros acc; simpl.
  - reflexivity.
  - apply IH.
Qed.

(** With at least one page the result, if there is one, ends in a newline
    and so is not empty. *)
Lemma extract_pages_nonempty (pages : list pdf_page) (acc out : text) :
  pages <> [] -> extract_pages pages acc = Ok out -> out <> [].
Proof.
  revert acc. induction pages as [| page rest IH]; intros acc Hne H.
  - contradiction.
  - simpl in H. destruct page as [s | e]; simpl in H; [| discriminate].
    destruct rest as [| page' rest'].
    + simpl in H. injection H as <-.
      intros Hnil. apply app_eq_nil in Hnil. destruct Hnil as [_ Hnil].
      apply app_eq_nil in Hnil. destruct Hnil as [_ Hnil]. discriminate.
    + eapply IH; [discriminate | exact H].
Qed.

(** C6, as stated, fails: a readable document with no pages makes the loop
    run zero times, and the empty string is returned without any error. *)
Lemma C6_zero_pages_counterexample :
  extract_text_from_pdf (Ok []) = Ok []
  /\ ~ (forall f : pdf_file,
           (f = Ok [] \/ exists cause, f = Raise cause) ->
           exists e, extract_text_from_pdf f = Raise e).
Proof.
  split; [reflexivity |].
  intros H. destruct (H (Ok []) (or_introl eq_refl)) as [e He].
  discriminate.
Qed.

(** C6, amended. An unreadable document, one whose reading raises or one of
    whose pages raises on extraction, makes the Text Extractor fail with an
    extraction error that wraps the underlying cause.  A readable document
    with an empty page set yields the empty string, and it is the only
    input that does. *)
Theorem C6_unreadable_fails (f : pdf_file) :
  (forall cause,
      f = Raise cause ->
      extract_text_from_pdf f
      = Raise (str "Error extracting text from PDF: " ++ cause))
  /\ (forall before cause after,
         f = Ok (map Ok before ++ Raise cause :: after) ->
         extract_text_from_pdf f
         = Raise (str "Error extracting text from PDF: " ++ cause))
  /\ (f = Ok [] -> extract_text_from_pdf f = Ok [])
  /\ (extract_text_from_pdf f = Ok [] -> f = Ok []).
Proof.
  repeat split.
  - intros cause ->. reflexivity.
  - intros before cause after ->. unfold extract_text_from_pdf. simpl.
    now rewrite extract_pages_first_error.
  - intros ->. reflexivity.
  - destruct f as [pages | e]; unfold extract_text_from_pdf; simpl.
    + destruct (extract_pages pages []) as [out | e] eqn:E; simpl.
      * intros Hout. injection Hout as ->.
        destruct pages as [| page rest]; [reflexivity |].
        exfalso. eapply extract_pages_nonempty; [| exact E | reflexivity].
        discriminate.
      * discriminate.
    + discriminate.
Qed.

Lemma C6_unreadable_fails_witness :
  extract_text_from_pdf (Raise (str "EOF marker not found"))
  = Raise (str "Error extracting text from PDF: "
           ++ str "EOF marker not found")
  /\ extract_text_from_pdf
       (Ok [Ok (str "page one"); Raise (str "bad stream")])
     = Raise (str "Error extracting text from PDF: " ++ str "bad stream").
Proof.
  split.
  - apply (proj1 (C6_unreadable_fails _)). reflexivity.
  - apply (proj1 (proj2 (C6_unreadable_fails _)) [str "page one"]
                 (str "bad stream") []).
    reflexivity.
Defined.

(** ** Analysis Client: the request *)

(** C7. Whatever the model identifier and the prompt, [invoke_model] sends
    exactly one request, of one fixed shape: the single user-role message
    and an inference configuration with the given token bound, the given
    temperature and top-p 0.9.  For a model outside the matching family the
    body that was built has the other shape and is not what is sent, so
    two calls that differ only in the model identifier send the same
    messages and the same configuration. *)
Theorem C7_request_shape_fixed
        (service : Bedrock.converse_call -> result Bedrock.converse_response)
        (prompt model_id : text) (max_tokens : Z) (temperature : Q)
        (w : Bedrock.world) :
  Bedrock.sent
    (snd (Bedrock.invoke_model service prompt model_id max_tokens
                               temperature w))
  = Bedrock.sent w ++ [fixed_request prompt model_id max_tokens temperature]
  /\ sent_shape (fixed_request prompt model_id max_tokens temperature)
     = Bedrock.NovaBody
         [user_message prompt]
         {| Bedrock.maxTokens := max_tokens;
            Bedrock.temperature := temperature;
            Bedrock.topP := 0.9%Q |}
  /\ (contains (str "amazon.nova") model_id = false ->
      Bedrock.built_request_body prompt model_id max_tokens temperature
      = Bedrock.PromptBody prompt max_tokens temperature
      /\ Bedrock.built_request_body prompt model_id max_tokens temperature
         <> sent_shape (fixed_request prompt model_id max_tokens temperature))
  /\ (forall other_id,
         sent_shape (fixed_request prompt other_id max_tokens temperature)
         = sent_shape (fixed_request prompt model_id max_tokens temperature)).
Proof.
  repeat split.
  - unfold Bedrock.invoke_model, Bedrock.converse, fixed_request,
      user_message.
    destruct (service _) as [response | e]; reflexivity.
  - unfold Bedrock.built_request_body. now rewrite H.
  - unfold Bedrock.built_request_body. rewrite H. discriminate.
Qed.

Lemma C7_request_shape_fixed_witness :
  Bedrock.built_request_body
    (str "hello") (str "anthropic.claude-v2") 4000 0.7%Q
  = Bedrock.PromptBody (str "hello") 4000 0.7%Q
  /\ Bedrock.built_request_body
       (str "hello") (str "anthropic.claude-v2") 4000 0.7%Q
     <> sent_shape
          (fixed_request (str "hello") (str "anthropic.claude-v2") 4000
                         0.7%Q).
Proof.
  apply (proj1 (proj2 (proj2
           (C7_request_shape_fixed
              (fun _ => Raise (str "unreachable")) (str "hello")
              (str "anthropic.claude-v2") 4000 0.7%Q
              {| Bedrock.sent := []; Bedrock.printed := [] |})))).
  reflexivity.
Defined.

(** ** Analysis Client: locating the braces *)

Lemma starts_with_char (c : char) (t : text) :
  starts_with [c] t = true <-> exists r, t = c :: r.
Proof.
  destruct t as [| d r]; simpl.
  - split; [discriminate | intros [r H]; discriminate].
  - rewrite andb_true_r. split.
    + intros H. apply N.eqb_eq in H. subst d. now exists r.
    + intros [r' H]. injection H as -> _. apply N.eqb_refl.
Qed.

Lemma first_index_unique (c : char) (t : text) (i i' : nat) :
  first_index c t i -> first_index c t i' -> i = i'.
Proof.
  intros [Hi Hmin] [Hi' Hmin'].
  destruct (Nat.lt_trichotomy i i') as [Hlt | [Heq | Hgt]].
  - exfalso. exact (Hmin' i Hlt Hi).
  - exact Heq.
  - exfalso. exact (Hmin i' Hgt Hi').
Qed.

Lemma last_index_unique (c : char) (t : text) (j j' : nat) :
  last_index c t j -> last_index c t j' -> j = j'.
Proof.
  intros [Hj Hmax] [Hj' Hmax'].
  destruct (Nat.lt_trichotomy j j') as [Hlt | [Heq | Hgt]].
  - exfalso. exact (Hmax j' Hlt Hj').
  - exact Heq.
  - exfalso. exact (Hmax' j Hgt Hj).
Qed.

(** [find] of a single character: -1 when it is absent, the position of its
    first occurrence otherwise. *)
Lemma find_from_char (c : char) (t : text) (k : Z) :
  (find_from [c] t k = (-1)%Z /\ (forall i, nth_error t i <> Some c)
   /\ (0 <= k)%Z)
  \/ (exists i, find_from [c] t k = (k + Z.of_nat i)%Z /\ first_index c t i)
  \/ (k < 0)%Z.
Proof.
  destruct (Z.lt_ge_cases k 0) as [Hneg | Hk]; [now right; right |].
  revert k Hk. induction t as [| d t IH]; intros k Hk.
  - left. simpl. repeat split; [| lia]. intros [| i]; discriminate.
  - simpl. rewrite andb_true_r.
    destruct (N.eqb_spec c d) as [-> | Hne].
    + right; left. exists 0. split; [lia |]. split; [reflexivity |].
      intros k' Hk'. lia.
    + destruct (IH (k + 1)%Z ltac:(lia))
        as [(Hr & Habs & _) | [(i & Hr & Hi & Hmin) | Hbad]]; [| | lia].
      * left. repeat split; [exact Hr | | lia].
        intros [| i]; simpl; [congruence | apply Habs].
      * right; left. exists (S i). split; [rewrite Hr; lia |].
        split; [exact Hi |].
        intros [| k'] Hk'; simpl; [congruence | apply Hmin; lia].
Qed.

(** [rfind] of a single character: -1 when it is absent, the position of its
    last occurrence otherwise. *)
Lemma rfind_from_char (c : char) (t : text) (k : Z) :
  (rfind_from [c] t k = (-1)%Z /\ (forall j, nth_error t j <> Some c)
   /\ (0 <= k)%Z)
  \/ (exists j, rfind_from [c] t k = (k + Z.of_nat j)%Z /\ last_index c t j)
  \/ (k < 0)%Z.
Proof.
  destruct (Z.lt_ge_cases k 0) as [Hneg | Hk]; [now right; right |].
  revert k Hk. induction t as [| d t IH]; intros k Hk.
  - left. simpl. repeat split; [| lia]. intros [| j]; discriminate.
  - simpl. rewrite andb_true_r.
    destruct (IH (k + 1)%Z ltac:(lia))
      as [(Hr & Habs & _) | [(j & Hr & Hj & Hmax) | Hbad]]; [| | lia].
    + rewrite Hr. simpl.
      destruct (N.eqb_spec c d) as [-> | Hne].
      * right; left. exists 0. split; [lia |]. split; [reflexivity |].
        intros [| k'] Hk'; [lia | simpl; apply Habs].
      * left. repeat split; [| lia].
        intros [| j]; simpl; [congruence | apply Habs].
    + rewrite Hr.
      destruct (Z.leb_spec 0 (k + 1 + Z.of_nat j)) as [_ | Hbad]; [| lia].
      right; left. exists (S j). split; [lia |]. split; [exact Hj |].
      intros [| k'] Hk'; simpl; [lia | apply Hmax; lia].
Qed.

Lemma find_char (c : char) (t : text) :
  (find [c] t = (-1)%Z /\ forall i, nth_error t i <> Some c)
  \/ exists i, find [c] t = Z.of_nat i /\ first_index c t i.
Proof.
  unfold find.
  destruct (find_from_char c t 0)
    as [(Hr & Habs & _) | [(i & Hr & Hi) | Hbad]]; [| | lia].
  - left. now split.
  - right. exists i. now split.
Qed.

Lemma rfind_char (c : char) (t : text) :
  (rfind [c] t = (-1)%Z /\ forall j, nth_error t j <> Some c)
  \/ exists j, rfind [c] t = Z.of_nat j /\ last_index c t j.
Proof.
  unfold rfind.
  destruct (rfind_from_char c t 0)
    as [(Hr & Habs & _) | [(j & Hr & Hj) | Hbad]]; [| | lia].
  - left. now split.
  - right. exists j. now split.
Qed.

(** For a given response either the brace span exists and decodes, or every
    candidate span is rejected (in particular when there is none). *)
Lemma span_decided (t : text) :
  (exists i j v,
      first_index open_brace t i /\ last_index close_brace t j /\ i < j
      /\ Json.loads (firstn (j + 1 - i) (skipn i t)) = Ok v)
  \/ (forall i j,
         first_index open_brace t i -> last_index close_brace t j ->
         i < j ->
         exists e, Json.loads (firstn (j + 1 - i) (skipn i t)) = Raise e).
Proof.
  destruct (find_char open_brace t) as [[_ Habs] | (i & _ & Hi)].
  { right. intros i j [Hi _] _ _. exfalso. exact (Habs i Hi). }
  destruct (rfind_char close_brace t) as [[_ Habs] | (j & _ & Hj)].
  { right. intros i' j _ [Hj _] _. exfalso. exact (Habs j Hj). }
  destruct (Json.loads (firstn (j + 1 - i) (skipn i t))) as [v | e] eqn:E.
  - destruct (Nat.le_gt_cases j i) as [Hle | Hlt].
    + right. intros i' j' Hi' Hj' Hlt. exfalso.
      rewrite (first_index_unique _ _ _ _ Hi' Hi) in Hlt.
      rewrite (last_index_unique _ _ _ _ Hj' Hj) in Hlt. lia.
    + left. exists i, j, v. repeat split; try assumption;
        try apply Hi; try apply Hj.
  - right. intros i' j' Hi' Hj' _.
    rewrite (first_index_unique _ _ _ _ Hi' Hi).
    rewrite (last_index_unique _ _ _ _ Hj' Hj). now exists e.
Qed.

(** ** Analysis Client: the parsing step

    The three operations share one parsing step up to the fallback key; the
    facts are proved once for any function that unfolds to that step. *)
Section ParsingStep.

Variable key : text.
Variable step : text -> result Json.value.

Hypothesis step_unfold :
  forall response_text,
    step response_text
    = try_except
        (let json_start := find [open_brace] response_text in
         let json_end := (rfind [close_brace] response_text + 1)%Z in
         if (json_start >=? 0)%Z && (json_end >? json_start)%Z then
           let json_str := slice response_text json_start json_end in
           Json.loads json_str
         else
           Ok (Json.JObject [(key, Json.JString response_text)]))
        (fun _ => Ok (Json.JObject [(key, Json.JString response_text)])).

(** With the first opening brace before the last closing brace, the step
    decodes exactly the text from the one through the other. *)
Lemma step_span (t : text) (i j : nat) :
  first_index open_brace t i ->
  last_index close_brace t j ->
  i < j ->
  step t
  = match Json.loads (firstn (j + 1 - i) (skipn i t)) with
    | Ok v => Ok v
    | Raise _ => Ok (Json.JObject [(key, Json.JString t)])
    end.
Proof.
  intros Hi Hj Hlt. rewrite step_unfold.
  destruct (find_char open_brace t) as [[_ Habs] | (i' & -> & Hi')].
  { exfalso. exact (Habs i (proj1 Hi)). }
  destruct (rfind_char close_brace t) as [[_ Habs] | (j' & -> & Hj')].
  { exfalso. exact (Habs j (proj1 Hj)). }
  rewrite (first_index_unique _ _ _ _ Hi' Hi).
  rewrite (last_index_unique _ _ _ _ Hj' Hj).
  cbv zeta.
  replace ((Z.of_nat i >=? 0)%Z && (Z.of_nat j + 1 >? Z.of_nat i)%Z)
    with true
    by (symmetry; apply andb_true_iff; split;
        [apply Z.geb_le | apply Z.gtb_lt]; lia).
  replace (Z.of_nat j + 1)%Z
    with (Z.of_nat i + Z.of_nat (j + 1 - i))%Z by lia.
  rewrite slice_window by lia. rewrite Nat2Z.id.
  unfold try_except. reflexivity.
Qed.

(** Without such a pair of braces the step returns the fallback. *)
Lemma step_no_span (t : text) :
  (forall i j,
      first_index open_brace t i -> last_index close_brace t j ->
      ~ i < j) ->
  step t = Ok (Json.JObject [(key, Json.JString t)]).
Proof.
  intros Hno. rewrite step_unfold. cbv zeta.
  destruct (find_char open_brace t) as [[-> _] | (i & -> & Hi)].
  { reflexivity. }
  destruct (rfind_char close_brace t) as [[-> _] | (j & -> & Hj)].
  { replace ((Z.of_nat i >=? 0)%Z && (-1 + 1 >? Z.of_nat i)%Z) with false;
      [reflexivity |].
    symmetry. apply andb_false_iff. right.
    destruct (Z.gtb_spec (-1 + 1) (Z.of_nat i)); [lia | reflexivity]. }
  assert (Hle : j <= i).
  { destruct (Nat.le_gt_cases j i) as [H | H]; [exact H |].
    exfalso. exact (Hno i j Hi Hj H). }
  assert (Hne : j <> i).
  { intros ->. destruct Hi as [Hi _]. destruct Hj as [Hj _].
    rewrite Hi in Hj. discriminate. }
  replace ((Z.of_nat i >=? 0)%Z && (Z.of_nat j + 1 >? Z.of_nat i)%Z)
    with false; [reflexivity |].
  symmetry. apply andb_false_iff. right.
  destruct (Z.gtb_spec (Z.of_nat j + 1) (Z.of_nat i)); [lia | reflexivity].
Qed.

(** The step always returns a value. *)
Lemma step_total (t : text) : exists v, step t = Ok v.
Proof.
  rewrite step_unfold. unfold try_except.
  match goal with
  | |- exists v, match ?body with _ => _ end = _ =>
      destruct body as [v | e]
  end.
  - now exists v.
  - now eexists.
Qed.

(** When every candidate span is rejected by the decoder, and so also
    when there is none, the step returns the fallback. *)
Lemma step_fallback (t : text) :
  (forall i j,
      first_index open_brace t i -> last_index close_brace t j ->
      i < j ->
      exists e, Json.loads (firstn (j + 1 - i) (skipn i t)) = Raise e) ->
  step t = Ok (Json.JObject [(key, Json.JString t)]).
Proof.
  intros Hfail.
  destruct (span_decided t)
    as [(i & j & v & Hi & Hj & Hlt & Hloads) | Hnone].
  - destruct (Hfail i j Hi Hj Hlt) as [e He].
    rewrite He in Hloads. discriminate.
  - destruct (find_char open_brace t) as [[_ Habs] | (i & _ & Hi)].
    { apply step_no_span. intros i j [Hi _] _ _. exact (Habs i Hi). }
    destruct (rfind_char close_brace t) as [[_ Habs] | (j & _ & Hj)].
    { apply step_no_span. intros i' j _ [Hj _] _. exact (Habs j Hj). }
    destruct (Nat.le_gt_cases j i) as [Hle | Hlt].
    + apply step_no_span. intros i' j' Hi' Hj'.
      rewrite (first_index_unique _ _ _ _ Hi' Hi).
      rewrite (last_index_unique _ _ _ _ Hj' Hj). lia.
    + rewrite (step_span t i j Hi Hj Hlt).
      destruct (Hnone i j Hi Hj Hlt) as [e ->]. reflexivity.
Qed.

End ParsingStep.

Lemma parsing_steps_unfold (key : text) (step : text -> result Json.value) :
  In (key, step) parsing_steps ->
  forall response_text,
    step response_text
    = try_except
        (let json_start := find [open_brace] response_text in
         let json_end := (rfind [close_brace] response_text + 1)%Z in
         if (json_start >=? 0)%Z && (json_end >? json_start)%Z then
           let json_str := slice response_text json_start json_end in
           Json.loads json_str
         else
           Ok (Json.JObject [(key, Json.JString response_text)]))
        (fun _ => Ok (Json.JObject [(key, Json.JString response_text)])).
Proof.
  intros Hin response_text. simpl in Hin.
  destruct Hin as [H | [H | [H | []]]]; injection H as <- <-; reflexivity.
Qed.

(** ** The decoder on a text that opens with a brace *)

Ltac split_match :=
  match goal with
  | H : context [match ?x with _ => _ end] |- _ =>
      destruct x eqn:?; try discriminate
  | H : context [if ?b then _ else _] |- _ =>
      destruct b eqn:?; try discriminate
  end.

Lemma parse_members_object
      (fuel : nat) (acc : list (text * Json.value)) (t r : text)
      (v : Json.value) :
  Json.parse_members fuel acc t = Ok (v, r) ->
  exists pairs, v = Json.JObject pairs.
Proof.
  revert acc t. induction fuel as [| fuel IH]; intros acc t H.
  - discriminate.
  - simpl in H. repeat split_match.
    + injection H as <- _. eauto.
    + eapply IH. exact H.
Qed.

Lemma loads_object (s : text) (v : Json.value) :
  (exists r, s = open_brace :: r) ->
  Json.loads s = Ok v ->
  exists pairs, v = Json.JObject pairs.
Proof.
  intros [r ->]. unfold Json.loads.
  change (starts_with [65279%N] (open_brace :: r)) with false.
  change (Json.skip_ws (open_brace :: r)) with (open_brace :: r).
  cbv iota. generalize (2 * List.length (open_brace :: r)). intros fuel H.
  destruct (Json.scan_once (S fuel) (open_brace :: r)) as [[v' rest] | e]
    eqn:E; [| discriminate].
  destruct (Json.skip_ws rest); [| discriminate].
  injection H as <-.
  change (Json.scan_once (S fuel) (open_brace :: r))
    with (match Json.skip_ws r with
          | [] => Raise Json.expecting_name
          | d :: r' =>
              if (d =? 125)%N then Ok (Json.JObject [], r')
              else Json.parse_members fuel [] (d :: r')
          end) in E.
  destruct (Json.skip_ws r) as [| d r']; [discriminate |].
  destruct (d =? 125)%N.
  - injection E as <- _. eauto.
  - eapply parse_members_object. exact E.
Qed.

Lemma span_starts_with_brace (t : text) (i j : nat) :
  first_index open_brace t i ->
  i < j ->
  exists r, firstn (j + 1 - i) (skipn i t) = open_brace :: r.
Proof.
  intros [Hi _] Hlt.
  destruct (skipn i t) as [| d r] eqn:E.
  - exfalso. rewrite <- (firstn_skipn i t) in Hi.
    rewrite E, app_nil_r in Hi.
    assert (Hlen : List.length (firstn i t) <= i) by apply firstn_le_length.
    apply nth_error_None in Hlen. rewrite Hlen in Hi. discriminate.
  - assert (Hd : nth_error t i = Some d).
    { rewrite <- (Nat.add_0_r i), <- nth_error_skipn, E. reflexivity. }
    rewrite Hi in Hd. injection Hd as <-.
    replace (j + 1 - i) with (S (j - i)) by lia. simpl. eauto.
Qed.

(** C4. When a [{] occurs and the last [}] lies after the first [{], each
    of the three parsing steps decodes exactly the text from that first [{]
    through that last [}], and when the decoding succeeds it returns the
    decoded value, which is a mapping.  On the response
    [Here you go: {"a": 1} done] the result is the mapping [{"a": 1}]. *)
Theorem C4_parses_brace_span :
  (forall key step,
      In (key, step) parsing_steps ->
      forall (t : text) (i j : nat) (v : Json.value),
        first_index open_brace t i ->
        last_index close_brace t j ->
        i < j ->
        Json.loads (firstn (j + 1 - i) (skipn i t)) = Ok v ->
        step t = Ok v /\ exists pairs, v = Json.JObject pairs)
  /\ Bedrock.analyze_cv_parse
       (str "Here you go: {" ++ dquote ++ str "a" ++ dquote
        ++ str ": 1} done")
     = Ok (Json.JObject [(str "a", Json.JInt 1)]).
Proof.
  split.
  - intros key step Hin t i j v Hi Hj Hlt Hloads. split.
    + rewrite (step_span key step (parsing_steps_unfold key step Hin)
                         t i j Hi Hj Hlt).
      now rewrite Hloads.
    + eapply loads_object; [| exact Hloads].
      eapply span_starts_with_brace; eassumption.
  - vm_compute. reflexivity.
Qed.

Lemma C4_parses_brace_span_witness :
  Bedrock.generate_cv_improvement_suggestions_parse
    (str "Sure: {" ++ dquote ++ str "skills" ++ dquote ++ str ": [1, 2]} ok")
  = Ok (Json.JObject
          [(str "skills", Json.JArray [Json.JInt 1; Json.JInt 2])]).
Proof.
  refine (proj1 (proj1 C4_parses_brace_span
                   Bedrock.suggestions_key
                   Bedrock.generate_cv_improvement_suggestions_parse
                   _ _ 6 23 _ _ _ _ _)).
  - simpl. right. right. left. reflexivity.
  - split; [reflexivity |].
    intros k Hk. do 6 (destruct k as [| k]; [discriminate |]). lia.
  - split; [reflexivity |].
    intros k Hk. do 24 (destruct k as [| k]; [lia |]).
    do 3 (destruct k as [| k]; [discriminate |]).
    destruct k; discriminate.
  - lia.
  - vm_compute. reflexivity.
Defined.

Lemma not_in_nth_error (c : char) (t : text) :
  ~ In c t -> forall i, nth_error t i <> Some c.
Proof.
  intros Hnot i Hi. apply Hnot. eapply nth_error_In. exact Hi.
Qed.

(** C5. Each of the three parsing steps returns a value on every response
    text: it never raises.  When no [{] comes before the last [}], or the
    decoder rejects the text between them, the value is the one-field
    mapping that holds the response text itself; in particular so for a
    response without any brace. *)
Theorem C5_parsing_never_raises :
  forall key step,
    In (key, step) parsing_steps ->
    forall t : text,
      (exists v, step t = Ok v)
      /\ ((forall i j,
              first_index open_brace t i ->
              last_index close_brace t j ->
              i < j ->
              exists e,
                Json.loads (firstn (j + 1 - i) (skipn i t)) = Raise e) ->
          step t = Ok (Json.JObject [(key, Json.JString t)]))
      /\ (~ In open_brace t -> ~ In close_brace t ->
          step t = Ok (Json.JObject [(key, Json.JString t)])).
Proof.
  intros key step Hin t.
  pose proof (parsing_steps_unfold key step Hin) as Hunfold.
  split; [exact (step_total key step Hunfold t) |].
  split.
  - exact (step_fallback key step Hunfold t).
  - intros Hopen _. apply (step_no_span key step Hunfold).
    intros i j [Hi _] _ _.
    exact (not_in_nth_error _ _ Hopen i Hi).
Qed.

Lemma C5_parsing_never_raises_witness :
  Bedrock.analyze_cv_parse (str "I could not read this resume.")
  = Ok (Json.JObject
          [(Bedrock.raw_analysis_key,
            Json.JString (str "I could not read this resume."))])
  /\ Bedrock.generate_cv_improvement_suggestions_parse
       (str "broken {not json} reply")
     = Ok (Json.JObject
             [(Bedrock.suggestions_key,
               Json.JString (str "broken {not json} reply"))]).
Proof.
  split.
  - apply (proj2 (proj2 (C5_parsing_never_raises
                           Bedrock.raw_analysis_key Bedrock.analyze_cv_parse
                           (or_introl eq_refl) _))).
    + intros H. simpl in H.
      repeat (destruct H as [H | H]; [discriminate |]). exact H.
    + intros H. simpl in H.
      repeat (destruct H as [H | H]; [discriminate |]). exact H.
  - apply (proj1 (proj2 (C5_parsing_never_raises
                           Bedrock.suggestions_key
                           Bedrock.generate_cv_improvement_suggestions_parse
                           (or_intror (or_intror (or_introl eq_refl))) _))).
    intros i j Hi Hj _.
    assert (Ei : i = 7).
    { apply (first_index_unique open_brace
               (str "broken {not json} reply") i 7 Hi).
      split; [reflexivity |].
      intros k Hk. do 7 (destruct k as [| k]; [discriminate |]). lia. }
    assert (Ej : j = 16).
    { apply (last_index_unique close_brace
               (str "broken {not json} reply") j 16 Hj).
      split; [reflexivity |].
      intros k Hk. do 17 (destruct k as [| k]; [lia |]).
      do 6 (destruct k as [| k]; [discriminate |]).
      destruct k; discriminate. }
    subst i j. eexists. vm_compute. reflexivity.
Defined.

(** C8. On every response the three parsing steps either all return the
    value decoded from the brace span, or all fall back; in the fallback
    the two analysis operations put the raw text under [raw_analysis] and
    the suggestion synthesis puts it under [suggestions], and the two key
    names differ. *)
Theorem C8_fallback_keys_distinct (t : text) :
  ((exists v,
       Bedrock.analyze_cv_parse t = Ok v
       /\ Bedrock.analyze_job_description_parse t = Ok v
       /\ Bedrock.generate_cv_improvement_suggestions_parse t = Ok v
       /\ exists i j,
           first_index open_brace t i /\ last_index close_brace t j
           /\ i < j
           /\ Json.loads (firstn (j + 1 - i) (skipn i t)) = Ok v)
   \/ (Bedrock.analyze_cv_parse t
       = Ok (Json.JObject [(str "raw_analysis", Json.JString t)])
       /\ Bedrock.analyze_job_description_parse t
          = Ok (Json.JObject [(str "raw_analysis", Json.JString t)])
       /\ Bedrock.generate_cv_improvement_suggestions_parse t
          = Ok (Json.JObject [(str "suggestions", Json.JString t)])))
  /\ str "raw_analysis" <> str "suggestions".
Proof.
  split; [| discriminate].
  assert (Hcv := parsing_steps_unfold
                   Bedrock.raw_analysis_key Bedrock.analyze_cv_parse
                   (or_introl eq_refl)).
  assert (Hjob := parsing_steps_unfold
                    Bedrock.raw_analysis_key
                    Bedrock.analyze_job_description_parse
                    (or_intror (or_introl eq_refl))).
  assert (Hsug := parsing_steps_unfold
                    Bedrock.suggestions_key
                    Bedrock.generate_cv_improvement_suggestions_parse
                    (or_intror (or_intror (or_introl eq_refl)))).
  destruct (span_decided t)
    as [(i & j & v & Hi & Hj & Hlt & Hloads) | Hnone].
  - left. exists v. repeat split.
    + rewrite (step_span _ _ Hcv t i j Hi Hj Hlt). now rewrite Hloads.
    + rewrite (step_span _ _ Hjob t i j Hi Hj Hlt). now rewrite Hloads.
    + rewrite (step_span _ _ Hsug t i j Hi Hj Hlt). now rewrite Hloads.
    + exists i, j. repeat split; try assumption; try apply Hi; try apply Hj.
  - right. repeat split.
    + exact (step_fallback _ _ Hcv t Hnone).
    + exact (step_fallback _ _ Hjob t Hnone).
    + exact (step_fallback _ _ Hsug t Hnone).
Qed.

(** ** Whitespace normalisation *)

(** Trimmed pieces with the empty ones dropped. *)
Lemma strip_space_cons (t : text) : strip (32%N :: t) = strip t.
Proof. reflexivity. Qed.

Lemma kept_push_space (pieces : list text) :
  pieces <> [] ->
  filter nonempty (map strip (push_front 32%N pieces))
  = filter nonempty (map strip pieces).
Proof.
  destruct pieces as [| p ps]; [contradiction |]. intros _.
  simpl. now rewrite strip_space_cons.
Qed.

Lemma split_space_runs_skip_space (t : text) :
  split_space_runs true (32%N :: t) = split_space_runs true t.
Proof. reflexivity. Qed.

Lemma split_space_runs_skip_other (c : char) (t : text) :
  (c =? 32)%N = false ->
  split_space_runs true (c :: t) = split_space_runs false (c :: t).
Proof. intros H. simpl. now rewrite H. Qed.

(** The two ways of cutting a line agree on the first piece, and on the
    other pieces once these are trimmed and the empty ones dropped; inside a
    run, they agree on all pieces in that sense. *)
Lemma split_agree_bounded (n : nat) (t : text) :
  List.length t <= n ->
  (exists h r1 r2,
      split_double_space t = h :: r1
      /\ split_space_runs false t = h :: r2
      /\ filter nonempty (map strip r1) = filter nonempty (map strip r2))
  /\ filter nonempty (map strip (split_double_space t))
     = filter nonempty (map strip (split_space_runs true t)).
Proof.
  revert t. induction n as [| n IH]; intros t Hlen.
  - destruct t; [| simpl in Hlen; lia].
    split; [exists [], [], []; repeat split | reflexivity].
  - destruct t as [| c t']; [split; [exists [], [], []; repeat split
                                    | reflexivity] |].
    simpl in Hlen.
    destruct (IH t' ltac:(lia)) as [(h & r1 & r2 & E1 & E2 & Er) Hskip].
    assert (Hfirst :
              exists h r1 r2,
                split_double_space (c :: t') = h :: r1
                /\ split_space_runs false (c :: t') = h :: r2
                /\ filter nonempty (map strip r1)
                   = filter nonempty (map strip r2)).
    { destruct t' as [| c' t''].
      - exists [c], [], []. repeat split.
      - simpl in Hlen.
        destruct ((c =? 32)%N && (c' =? 32)%N) eqn:Eb.
        + exists [], (split_double_space t''), (split_space_runs true t'').
          repeat split.
          * simpl. now rewrite Eb.
          * simpl. now rewrite Eb.
          * apply (IH t''). lia.
        + exists (c :: h), r1, r2. repeat split.
          * change (split_double_space (c :: c' :: t''))
              with (if (c =? 32)%N && (c' =? 32)%N
                    then [] :: split_double_space t''
                    else push_front c (split_double_space (c' :: t''))).
            rewrite Eb, E1. reflexivity.
          * change (split_space_runs false (c :: c' :: t''))
              with (if (c =? 32)%N && (c' =? 32)%N
                    then [] :: split_space_runs true t''
                    else push_front c (split_space_runs false (c' :: t''))).
            rewrite Eb, E2. reflexivity.
          * exact Er. }
    split; [exact Hfirst |].
    destruct (N.eqb_spec c 32) as [-> | Hc].
    + rewrite split_space_runs_skip_space.
      destruct t' as [| c' t''].
      * reflexivity.
      * destruct (N.eqb_spec c' 32) as [-> | Hc'].
        -- change (split_double_space (32%N :: 32%N :: t''))
             with ([] :: split_double_space t'').
           rewrite split_space_runs_skip_space.
           simpl in Hlen. simpl. apply (IH t''). lia.
        -- change (split_double_space (32%N :: c' :: t''))
             with (if (c' =? 32)%N
                   then [] :: split_double_space t''
                   else push_front 32%N (split_double_space (c' :: t''))).
           apply N.eqb_neq in Hc'. rewrite Hc'.
           rewrite split_space_runs_skip_other by exact Hc'.
           rewrite kept_push_space by (rewrite E1; discriminate).
           rewrite E1, E2. simpl. now rewrite Er.
    + apply N.eqb_neq in Hc.
      rewrite split_space_runs_skip_other by exact Hc.
      destruct Hfirst as (h' & r1' & r2' & -> & -> & Er').
      simpl. now rewrite Er'.
Qed.

Lemma split_agree (t : text) :
  filter nonempty (map strip (split_double_space t))
  = filter nonempty (map strip (split_space_runs false t)).
Proof.
  destruct (split_agree_bounded (List.length t) t (le_n _))
    as [(h & r1 & r2 & -> & -> & Er) _].
  simpl. now rewrite Er.
Qed.

Lemma filter_flat_map_ext (A B : Type) (keep : B -> bool)
      (f g : A -> list B) (l : list A) :
  (forall x, filter keep (f x) = filter keep (g x)) ->
  filter keep (flat_map f l) = filter keep (flat_map g l).
Proof.
  intros Hfg. induction l as [| x l IH]; simpl.
  - reflexivity.
  - now rewrite !filter_app, Hfg, IH.
Qed.

(** C9, as stated, fails: the source trims every fragment after cutting a
    line, and the wording does not.  A tab next to a double space shows
    it. *)
Lemma C9_fragment_trim_counterexample :
  normalize_whitespace (str "a" ++ [9%N] ++ str "  b")
  = str "a" ++ newline ++ str "b"
  /\ spec_normalize (str "a" ++ [9%N] ++ str "  b")
     = str "a" ++ [9%N] ++ newline ++ str "b"
  /\ ~ (forall t, normalize_whitespace t = spec_normalize t).
Proof.
  split; [reflexivity |]. split; [reflexivity |].
  intros H. specialize (H (str "a" ++ [9%N] ++ str "  b")).
  vm_compute in H. discriminate.
Qed.

(** C9, amended. The normalisation equals: split the text into lines, trim
    each line, split each line on runs of multiple spaces, trim each
    resulting fragment, discard the empty fragments, and rejoin the rest
    with single newlines. *)
Theorem C9_normalize_refines (t : text) :
  normalize_whitespace t = spec_normalize_trimmed t.
Proof.
  unfold normalize_whitespace, spec_normalize_trimmed. f_equal.
  apply filter_flat_map_ext. intros line. apply split_agree.
Qed.


(** * Further properties *)

(** ** Section Locator, further *)

(** X1. The excerpt is one contiguous piece of the text, and it stops short
    of the end of the text only when it has reached 5000 characters. *)
Theorem X1_excerpt_contiguous (t : text) :
  exists before after,
    t = before ++ locate_section t ++ after
    /\ (after <> [] -> len (locate_section t) = 5000%Z).
Proof.
  destruct (locate_with_window job_desc_patterns t) as [s Hw].
  unfold locate_section. rewrite Hw.
  exists (firstn s t), (skipn (Z.to_nat excerpt_limit) (skipn s t)).
  split.
  - now rewrite firstn_skipn, firstn_skipn.
  - intros Hafter. unfold len. rewrite length_firstn.
    assert (Hlong : Z.to_nat excerpt_limit < List.length (skipn s t)).
    { destruct (Nat.lt_ge_cases (Z.to_nat excerpt_limit)
                                (List.length (skipn s t))) as [H | H];
        [exact H |].
      exfalso. apply Hafter. now apply skipn_all2. }
    unfold excerpt_limit in *. lia.
Qed.

Lemma search_in_range (p t : text) (m : nat) :
  p <> [] -> Regex.search p t = Some m -> m < List.length t.
Proof.
  intros Hp H. destruct (search_Some _ _ _ H) as (Hocc & Hle & _).
  destruct (Nat.eq_dec m (List.length t)) as [-> | Hne]; [| lia].
  exfalso. unfold occurs_at in Hocc. rewrite skipn_all in Hocc.
  destruct p; [now apply Hp | discriminate].
Qed.

Lemma locate_with_nil_iff (patterns : list text) (t : text) :
  Forall (fun p => p <> []) patterns ->
  (locate_with patterns t = [] <-> t = []).
Proof.
  intros Hne. destruct limit_positive as [n Hn].
  induction Hne as [| p ps Hp Hps IH]; simpl.
  - rewrite slice_prefix by apply limit_nonneg. rewrite Hn.
    destruct t; simpl; split; congruence.
  - destruct (Regex.search p t) as [m |] eqn:E; [| exact IH].
    rewrite slice_window by apply limit_nonneg. rewrite Hn.
    pose proof (search_in_range p t m Hp E) as Hm.
    destruct (skipn m t) as [| d r] eqn:Es.
    + exfalso. apply (f_equal (@List.length _)) in Es.
      rewrite length_skipn in Es. simpl in Es. lia.
    + simpl. split; [discriminate |]. intros ->. simpl in Hm. lia.
Qed.

Lemma locate_section_nil_iff (t : text) :
  locate_section t = [] <-> t = [].
Proof.
  apply locate_with_nil_iff. unfold job_desc_patterns.
  repeat (constructor; [discriminate |]). constructor.
Qed.

(** X2. The excerpt is empty only for the empty text. *)
Theorem X2_excerpt_empty_iff (t : text) :
  locate_section t = [] <-> t = [].
Proof. exact (locate_section_nil_iff t). Qed.

(** X3. The marker list is a priority list: the excerpt starts at the
    leftmost occurrence of the first listed marker that occurs at all,
    wherever the markers listed after it occur. *)
Theorem X3_first_listed_marker_decides
        (before after : list text) (p t : text) (m : nat) :
  job_desc_patterns = before ++ p :: after ->
  (forall q, In q before -> forall i, ~ occurs_at q t i) ->
  occurs_at p t m ->
  (forall k, k < m -> ~ occurs_at p t k) ->
  locate_section t = slice t (Z.of_nat m) (Z.of_nat m + 5000).
Proof.
  intros Hsplit Hbefore Hocc Hmin.
  unfold locate_section. rewrite Hsplit.
  rewrite (slice_window t m 5000) by lia.
  apply locate_with_first.
  - intros q Hq. apply search_None. exact (Hbefore q Hq).
  - destruct (occurs_search p t m Hocc) as (m' & Hs & Hle).
    destruct (search_Some _ _ _ Hs) as (Hocc' & _ & _).
    destruct (Nat.eq_dec m' m) as [-> | Hne]; [exact Hs |].
    exfalso. apply (Hmin m'); [lia | exact Hocc'].
Qed.

Lemma X3_first_listed_marker_decides_witness :
  locate_section (str "Apply now. Requirements: Rust. What you'll do: ship.")
  = slice (str "Apply now. Requirements: Rust. What you'll do: ship.")
          31 (31 + 5000).
Proof.
  apply (X3_first_listed_marker_decides
           [str "job description"; str "about the job";
            str "about this role"; str "responsibilities"]
           [str "requirements"] (str "what you'll do") _ 31).
  - reflexivity.
  - intros q Hq. apply search_None. simpl in Hq.
    repeat (destruct Hq as [<- | Hq]; [reflexivity |]). destruct Hq.
  - reflexivity.
  - intros k Hk.
    assert (Hs : Regex.search
                   (str "what you'll do")
                   (str "Apply now. Requirements: Rust. What you'll do: ship.")
                 = Some 31) by reflexivity.
    destruct (search_Some _ _ _ Hs) as (_ & _ & Hmin). now apply Hmin.
Defined.

(** Changing the ASCII case of a subject character does not change what it
    matches. *)
Ltac range_facts :=
  repeat match goal with
         | H : _ && _ = true |- _ =>
             apply andb_true_iff in H; destruct H
         | H : _ && _ = false |- _ =>
             apply andb_false_iff in H; destruct H
         | H : (_ <=? _)%N = true |- _ => apply N.leb_le in H
         | H : (_ <=? _)%N = false |- _ => apply N.leb_gt in H
         end.

Ltac same_truth :=
  apply eq_true_iff_eq;
  repeat (rewrite orb_true_iff || rewrite andb_true_iff
          || rewrite N.eqb_eq);
  lia.

Lemma literal_ignorecase_recased (c d d' : char) :
  (Regex.is_ascii_lower d = true /\ d' = (d - 32)%N)
  \/ (Regex.is_ascii_upper d = true /\ d' = (d + 32)%N) ->
  Regex.literal_ignorecase c d' = Regex.literal_ignorecase c d.
Proof.
  intros Hd.
  assert (Hrange : (65 <= d <= 90 /\ d' = d + 32
                    \/ 97 <= d <= 122 /\ d' = d - 32)%N).
  { unfold Regex.is_ascii_lower, Regex.is_ascii_upper in Hd.
    destruct Hd as [[H ->] | [H ->]]; range_facts; lia. }
  clear Hd.
  unfold Regex.literal_ignorecase, Regex.ascii_tolower, Regex.extra_variant.
  destruct (Regex.is_ascii_upper c) eqn:Ec.
  - assert (El : Regex.is_ascii_lower (c + 32)%N = true).
    { unfold Regex.is_ascii_upper, Regex.is_ascii_lower in *. range_facts.
      apply andb_true_iff; split; apply N.leb_le; lia. }
    rewrite El.
    unfold Regex.is_ascii_upper in Ec. range_facts; same_truth.
  - destruct (Regex.is_ascii_lower c) eqn:El.
    + unfold Regex.is_ascii_lower in El. range_facts; same_truth.
    + unfold Regex.is_ascii_lower in El. unfold Regex.is_ascii_upper in Ec.
      range_facts; same_truth.
Qed.

Lemma literal_ignorecase_upper (c d : char) :
  Regex.literal_ignorecase c (ascii_upper d) = Regex.literal_ignorecase c d.
Proof.
  unfold ascii_upper. destruct (Regex.is_ascii_lower d) eqn:E;
    [| reflexivity].
  apply literal_ignorecase_recased. left. now split.
Qed.

Lemma literal_ignorecase_lower (c d : char) :
  Regex.literal_ignorecase c (ascii_lower d) = Regex.literal_ignorecase c d.
Proof.
  unfold ascii_lower. destruct (Regex.is_ascii_upper d) eqn:E;
    [| reflexivity].
  apply literal_ignorecase_recased. right. now split.
Qed.

Section CaseChange.

(** Any change of characters that the matcher cannot see. *)
Variable recase : char -> char.
Hypothesis recase_invisible :
  forall c d,
    Regex.literal_ignorecase c (recase d) = Regex.literal_ignorecase c d.

Lemma match_here_recase (p t : text) :
  Regex.match_here p (map recase t) = Regex.match_here p t.
Proof.
  revert t. induction p as [| c p IH]; intros [| d t]; simpl;
    try reflexivity.
  now rewrite recase_invisible, IH.
Qed.

Lemma search_recase (p t : text) :
  Regex.search p (map recase t) = Regex.search p t.
Proof.
  induction t as [| d t IH].
  - reflexivity.
  - change (Regex.search p (map recase (d :: t)))
      with (if Regex.match_here p (map recase (d :: t)) then Some 0
            else option_map S (Regex.search p (map recase t))).
    rewrite match_here_recase, IH. reflexivity.
Qed.

Lemma slice_map (t : text) (lo hi : Z) :
  slice (map recase t) lo hi = map recase (slice t lo hi).
Proof.
  unfold slice, len. rewrite length_map.
  now rewrite skipn_map, firstn_map.
Qed.

Lemma locate_with_recase (patterns : list text) (t : text) :
  locate_with patterns (map recase t) = map recase (locate_with patterns t).
Proof.
  induction patterns as [| p ps IH]; simpl.
  - apply slice_map.
  - rewrite search_recase.
    destruct (Regex.search p t); [apply slice_map | exact IH].
Qed.

End CaseChange.

(** X4. The locator does not see ASCII case: on the page in upper case, or
    in lower case, it cuts the same window, so the excerpt is the original
    excerpt in that case. *)
Theorem X4_locator_ignores_ascii_case (t : text) :
  locate_section (map ascii_upper t) = map ascii_upper (locate_section t)
  /\ locate_section (map ascii_lower t) = map ascii_lower (locate_section t).
Proof.
  split.
  - apply locate_with_recase. intros c d. apply literal_ignorecase_upper.
  - apply locate_with_recase. intros c d. apply literal_ignorecase_lower.
Qed.

(** ** Whitespace normalisation, further *)

Ltac to_prop :=
  repeat (rewrite orb_true_iff || rewrite andb_true_iff
          || rewrite N.eqb_eq || rewrite N.leb_le).

Lemma linebreak_is_space (c : char) :
  is_linebreak c = true -> is_space c = true.
Proof.
  unfold is_linebreak, is_space. to_prop. lia.
Qed.

Lemma space_is_space : is_space 32%N = true.
Proof. reflexivity. Qed.

Lemma concat_push_front (c : char) (pieces : list text) :
  List.concat (push_front c pieces) = c :: List.concat pieces.
Proof. destruct pieces; reflexivity. Qed.

Lemma visible_app (a b : text) : visible (a ++ b) = visible a ++ visible b.
Proof. apply filter_app. Qed.

Lemma visible_space (c : char) (t : text) :
  is_space c = true -> visible (c :: t) = visible t.
Proof. intros H. unfold visible. simpl. now rewrite H. Qed.

Lemma visible_other (c : char) (t : text) :
  is_space c = false -> visible (c :: t) = c :: visible t.
Proof. intros H. unfold visible. simpl. now rewrite H. Qed.

Lemma visible_cons_congr (c : char) (a b : text) :
  visible a = visible b -> visible (c :: a) = visible (c :: b).
Proof. unfold visible. simpl. now intros ->. Qed.

Lemma visible_splitlines_bounded (n : nat) (t : text) :
  List.length t <= n ->
  visible (List.concat (splitlines t)) = visible t.
Proof.
  revert t. induction n as [| n IH]; intros t Hlen.
  - destruct t; [reflexivity | simpl in Hlen; lia].
  - destruct t as [| c t']; [reflexivity |]. simpl in Hlen.
    change (splitlines (c :: t'))
      with (if is_linebreak c then
              match t' with
              | c' :: t'' =>
                  if (c =? 13)%N && (c' =? 10)%N
                  then [] :: splitlines t''
                  else [] :: splitlines t'
              | [] => [[]]
              end
            else push_front c (splitlines t')).
    destruct (is_linebreak c) eqn:Elb.
    + rewrite (visible_space c t' (linebreak_is_space c Elb)).
      destruct t' as [| c' t'']; [reflexivity |].
      destruct ((c =? 13)%N && (c' =? 10)%N) eqn:Ecr.
      * apply andb_true_iff in Ecr. destruct Ecr as [_ Ec'].
        apply N.eqb_eq in Ec'. subst c'.
        rewrite (visible_space 10%N t'' eq_refl).
        simpl in Hlen. cbn [List.concat app]. apply IH. lia.
      * cbn [List.concat app]. apply IH. lia.
    + rewrite concat_push_front. apply visible_cons_congr, IH. lia.
Qed.

Lemma visible_splitlines (t : text) :
  visible (List.concat (splitlines t)) = visible t.
Proof. apply (visible_splitlines_bounded (List.length t)). lia. Qed.

Lemma visible_lstrip (t : text) : visible (lstrip t) = visible t.
Proof.
  induction t as [| c t IH]; [reflexivity |]. cbn [lstrip].
  destruct (is_space c) eqn:E; [| reflexivity].
  now rewrite (visible_space c t E).
Qed.

Lemma visible_rstrip (t : text) : visible (rstrip t) = visible t.
Proof.
  induction t as [| c t IH]; [reflexivity |]. cbn [rstrip].
  destruct (rstrip t) as [| d r] eqn:Er.
  - destruct (is_space c) eqn:E.
    + rewrite (visible_space c t E). exact IH.
    + rewrite (visible_other c t E), <- IH. unfold visible. simpl.
      now rewrite E.
  - destruct (is_space c) eqn:E.
    + rewrite !(visible_space c _ E). exact IH.
    + rewrite !(visible_other c _ E). now rewrite IH.
Qed.

Lemma visible_strip (t : text) : visible (strip t) = visible t.
Proof. unfold strip. now rewrite visible_rstrip, visible_lstrip. Qed.

Lemma visible_split_bounded (n : nat) (t : text) :
  List.length t <= n ->
  visible (List.concat (split_double_space t)) = visible t.
Proof.
  revert t. induction n as [| n IH]; intros t Hlen.
  - destruct t; [reflexivity | simpl in Hlen; lia].
  - destruct t as [| c t']; [reflexivity |]. simpl in Hlen.
    destruct t' as [| c' t'']; [reflexivity |].
    change (split_double_space (c :: c' :: t''))
      with (if (c =? 32)%N && (c' =? 32)%N
            then [] :: split_double_space t''
            else push_front c (split_double_space (c' :: t''))).
    destruct ((c =? 32)%N && (c' =? 32)%N) eqn:E.
    + apply andb_true_iff in E. destruct E as [Ec Ec'].
      apply N.eqb_eq in Ec, Ec'. subst c c'.
      rewrite !(visible_space 32%N _ eq_refl).
      simpl in Hlen. cbn [List.concat app]. apply IH. lia.
    + rewrite concat_push_front. apply visible_cons_congr, IH.
      simpl in Hlen |- *. lia.
Qed.

Lemma visible_split (t : text) :
  visible (List.concat (split_double_space t)) = visible t.
Proof. apply (visible_split_bounded (List.length t)). lia. Qed.

Lemma visible_join (pieces : list text) :
  visible (join newline pieces) = visible (List.concat pieces).
Proof.
  induction pieces as [| p ps IH]; [reflexivity |].
  destruct ps as [| q qs].
  - simpl. now rewrite app_nil_r.
  - change (join newline (p :: q :: qs))
      with (p ++ newline ++ join newline (q :: qs)).
    change (List.concat (p :: q :: qs))
      with (p ++ List.concat (q :: qs)).
    rewrite !visible_app, IH. reflexivity.
Qed.

Lemma concat_filter_nonempty (pieces : list text) :
  List.concat (filter nonempty pieces) = List.concat pieces.
Proof.
  induction pieces as [| p ps IH]; [reflexivity |].
  destruct p; simpl; now rewrite IH.
Qed.

Lemma visible_concat_map (f : text -> text) (pieces : list text) :
  (forall x, visible (f x) = visible x) ->
  visible (List.concat (map f pieces)) = visible (List.concat pieces).
Proof.
  intros Hf. induction pieces as [| p ps IH]; [reflexivity |].
  simpl. now rewrite !visible_app, Hf, IH.
Qed.

Lemma visible_concat_flat_map (f : text -> list text) (lines : list text) :
  (forall x, visible (List.concat (f x)) = visible x) ->
  visible (List.concat (flat_map f lines)) = visible (List.concat lines).
Proof.
  intros Hf. induction lines as [| l ls IH]; [reflexivity |].
  simpl. now rewrite concat_app, !visible_app, Hf, IH.
Qed.

Lemma visible_normalize (t : text) :
  visible (normalize_whitespace t) = visible t.
Proof.
  unfold normalize_whitespace.
  rewrite visible_join, concat_filter_nonempty.
  rewrite visible_concat_flat_map.
  - rewrite (visible_concat_map strip) by apply visible_strip.
    apply visible_splitlines.
  - intros line.
    rewrite (visible_concat_map strip) by apply visible_strip.
    apply visible_split.
Qed.

(** X5. The normalisation changes whitespace only: the characters that are
    not whitespace come out unchanged and in the same order. *)
Theorem X5_normalize_keeps_visible (t : text) :
  visible (normalize_whitespace t) = visible t.
Proof. exact (visible_normalize t). Qed.

(** *** What the pieces of a line look like *)

Lemma Forall_push_front (P : char -> Prop) (c : char) (pieces : list text) :
  P c -> Forall (Forall P) pieces -> Forall (Forall P) (push_front c pieces).
Proof.
  intros Hc Hp. destruct Hp as [| p ps Hp Hps]; simpl.
  - repeat constructor. exact Hc.
  - constructor; [constructor |]; assumption.
Qed.

Lemma splitlines_no_linebreak_bounded (n : nat) (t : text) :
  List.length t <= n ->
  Forall (Forall (fun c => is_linebreak c = false)) (splitlines t).
Proof.
  revert t. induction n as [| n IH]; intros t Hlen.
  - destruct t; [constructor | simpl in Hlen; lia].
  - destruct t as [| c t']; [constructor |]. simpl in Hlen.
    change (splitlines (c :: t'))
      with (if is_linebreak c then
              match t' with
              | c' :: t'' =>
                  if (c =? 13)%N && (c' =? 10)%N
                  then [] :: splitlines t''
                  else [] :: splitlines t'
              | [] => [[]]
              end
            else push_front c (splitlines t')).
    destruct (is_linebreak c) eqn:Elb.
    + destruct t' as [| c' t'']; [repeat constructor |].
      simpl in Hlen.
      destruct ((c =? 13)%N && (c' =? 10)%N);
        (constructor; [constructor | apply IH; simpl; lia]).
    + apply Forall_push_front; [exact Elb | apply IH; lia].
Qed.

Lemma splitlines_no_linebreak (t : text) :
  Forall (Forall (fun c => is_linebreak c = false)) (splitlines t).
Proof. apply (splitlines_no_linebreak_bounded (List.length t)). lia. Qed.

Lemma lstrip_Forall (P : char -> Prop) (t : text) :
  Forall P t -> Forall P (lstrip t).
Proof.
  induction 1 as [| c t Hc Ht IH]; cbn [lstrip]; [constructor |].
  destruct (is_space c); [exact IH | now constructor].
Qed.

Lemma rstrip_Forall (P : char -> Prop) (t : text) :
  Forall P t -> Forall P (rstrip t).
Proof.
  induction 1 as [| c t Hc Ht IH]; cbn [rstrip]; [constructor |].
  destruct (rstrip t) as [| d r].
  - destruct (is_space c); repeat constructor. exact Hc.
  - now constructor.
Qed.

Lemma strip_Forall (P : char -> Prop) (t : text) :
  Forall P t -> Forall P (strip t).
Proof. intros H. now apply rstrip_Forall, lstrip_Forall. Qed.

Lemma split_unfold (c c' : char) (t : text) :
  split_double_space (c :: c' :: t)
  = if (c =? 32)%N && (c' =? 32)%N
    then [] :: split_double_space t
    else push_front c (split_double_space (c' :: t)).
Proof. reflexivity. Qed.

Lemma split_Forall_bounded (P : char -> Prop) (n : nat) (t : text) :
  List.length t <= n ->
  Forall P t -> Forall (Forall P) (split_double_space t).
Proof.
  revert t. induction n as [| n IH]; intros t Hlen Ht.
  - destruct t; [repeat constructor | simpl in Hlen; lia].
  - destruct t as [| c [| c' t'']]; [repeat constructor | |].
    + repeat constructor. now inversion Ht.
    + rewrite split_unfold. simpl in Hlen.
      inversion Ht as [| ? ? Hc Ht']; subst.
      destruct ((c =? 32)%N && (c' =? 32)%N).
      * constructor; [constructor |]. apply IH; [lia |].
        now inversion Ht'.
      * apply Forall_push_front; [exact Hc |].
        apply IH; [simpl; lia | exact Ht'].
Qed.

Lemma split_Forall (P : char -> Prop) (t : text) :
  Forall P t -> Forall (Forall P) (split_double_space t).
Proof. apply (split_Forall_bounded P (List.length t)). lia. Qed.

(** The first piece is empty or begins like the line. *)
Lemma split_head (t : text) (r : list text) (x : char) (h' : text) :
  split_double_space t = (x :: h') :: r -> exists t', t = x :: t'.
Proof.
  destruct t as [| c [| c' t'']].
  - discriminate.
  - simpl. intros H. injection H as <- _ _. eauto.
  - rewrite split_unfold.
    destruct ((c =? 32)%N && (c' =? 32)%N); [discriminate |].
    destruct (split_double_space (c' :: t'')); simpl;
      intros H; injection H as <- _; eauto.
Qed.

Lemma has_double_unfold (c c' : char) (t : text) :
  has_double_space (c :: c' :: t)
  = ((c =? 32)%N && (c' =? 32)%N) || has_double_space (c' :: t).
Proof. reflexivity. Qed.

Lemma has_double_tail (c : char) (t : text) :
  has_double_space (c :: t) = false -> has_double_space t = false.
Proof.
  destruct t as [| c' t]; [reflexivity |].
  rewrite has_double_unfold. intros H.
  now apply orb_false_iff in H.
Qed.

Lemma split_no_double_bounded (n : nat) (t : text) :
  List.length t <= n ->
  Forall (fun p => has_double_space p = false) (split_double_space t).
Proof.
  revert t. induction n as [| n IH]; intros t Hlen.
  - destruct t; [repeat constructor | simpl in Hlen; lia].
  - destruct t as [| c [| c' t'']]; [repeat constructor | repeat constructor |].
    rewrite split_unfold. simpl in Hlen.
    destruct ((c =? 32)%N && (c' =? 32)%N) eqn:E.
    + constructor; [reflexivity |]. apply IH. lia.
    + pose proof (IH (c' :: t'') ltac:(simpl; lia)) as Hrest.
      destruct (split_double_space (c' :: t'')) as [| h r] eqn:Es.
      * repeat constructor.
      * inversion Hrest as [| ? ? Hh Hr]; subst. simpl.
        constructor; [| exact Hr].
        destruct h as [| x h']; [reflexivity |].
        destruct (split_head _ r x h' Es) as [t' Ht'].
        injection Ht' as <- _.
        rewrite has_double_unfold, E. exact Hh.
Qed.

Lemma split_no_double (t : text) :
  Forall (fun p => has_double_space p = false) (split_double_space t).
Proof. apply (split_no_double_bounded (List.length t)). lia. Qed.

Lemma has_double_lstrip (t : text) :
  has_double_space t = false -> has_double_space (lstrip t) = false.
Proof.
  induction t as [| c t IH]; [reflexivity |]. intros H. cbn [lstrip].
  destruct (is_space c); [| exact H].
  apply IH. exact (has_double_tail c t H).
Qed.

Lemma rstrip_head (t : text) (d : char) (r : text) :
  rstrip t = d :: r -> exists t', t = d :: t'.
Proof.
  destruct t as [| c t]; [discriminate |]. cbn [rstrip].
  destruct (rstrip t).
  - destruct (is_space c); [discriminate |].
    intros H. injection H as <- _. eauto.
  - intros H. injection H as <- _. eauto.
Qed.

Lemma has_double_rstrip (t : text) :
  has_double_space t = false -> has_double_space (rstrip t) = false.
Proof.
  induction t as [| c t IH]; [reflexivity |]. intros H. cbn [rstrip].
  pose proof (IH (has_double_tail c t H)) as Hr.
  destruct (rstrip t) as [| d r] eqn:Er.
  - destruct (is_space c); reflexivity.
  - destruct (rstrip_head t d r Er) as [t' ->].
    rewrite has_double_unfold in H |- *.
    apply orb_false_iff in H. destruct H as [-> _]. exact Hr.
Qed.

Lemma has_double_strip (t : text) :
  has_double_space t = false -> has_double_space (strip t) = false.
Proof. intros H. now apply has_double_rstrip, has_double_lstrip. Qed.

(** *** Trimming twice *)

Lemma lstrip_head (t : text) :
  lstrip t = [] \/ exists c r, lstrip t = c :: r /\ is_space c = false.
Proof.
  induction t as [| c t IH]; [now left |]. cbn [lstrip].
  destruct (is_space c) eqn:E; [exact IH |]. right. eauto.
Qed.

Lemma rstrip_rstrip (t : text) : rstrip (rstrip t) = rstrip t.
Proof.
  induction t as [| c t IH]; [reflexivity |]. cbn [rstrip].
  destruct (rstrip t) as [| d r] eqn:Er.
  - destruct (is_space c) eqn:E; [reflexivity |].
    cbn [rstrip]. now rewrite E.
  - change (rstrip (c :: d :: r))
      with (match rstrip (d :: r) with
            | [] => if is_space c then [] else [c]
            | x :: r' => c :: x :: r'
            end).
    now rewrite IH.
Qed.

Lemma rstrip_keeps_head (c : char) (t : text) :
  is_space c = false -> exists r, rstrip (c :: t) = c :: r.
Proof.
  intros H. cbn [rstrip]. destruct (rstrip t); rewrite ?H; eauto.
Qed.

Lemma strip_strip (t : text) : strip (strip t) = strip t.
Proof.
  unfold strip. destruct (lstrip_head t) as [-> | (c & r & -> & Hc)].
  - reflexivity.
  - destruct (rstrip_keeps_head c r Hc) as [r' Hr]. rewrite Hr.
    cbn [lstrip]. rewrite Hc. rewrite <- Hr. apply rstrip_rstrip.
Qed.

(** *** The lines of the normalised text *)

Lemma chunks_clean (t : text) :
  Forall clean_line
         (filter nonempty
                 (flat_map (fun line => map strip (split_double_space line))
                           (map strip (splitlines t)))).
Proof.
  apply Forall_forall. intros chunk Hin.
  apply filter_In in Hin. destruct Hin as [Hin Hne].
  apply in_flat_map in Hin. destruct Hin as (line & Hline & Hin).
  apply in_map_iff in Hin. destruct Hin as (piece & <- & Hpiece).
  apply in_map_iff in Hline. destruct Hline as (raw & <- & Hraw).
  repeat split.
  - exact Hne.
  - apply strip_strip.
  - apply has_double_strip.
    exact (proj1 (Forall_forall _ _) (split_no_double (strip raw))
                 piece Hpiece).
  - apply strip_Forall.
    refine (proj1 (Forall_forall _ _) (split_Forall _ (strip raw) _)
                  piece Hpiece).
    apply strip_Forall.
    exact (proj1 (Forall_forall _ _) (splitlines_no_linebreak t) raw Hraw).
Qed.

Lemma splitlines_line (l : text) :
  l <> [] ->
  Forall (fun c => is_linebreak c = false) l ->
  splitlines l = [l].
Proof.
  intros Hne Hl. induction Hl as [| c l Hc Hl IH]; [contradiction |].
  cbn [splitlines]. rewrite Hc.
  destruct l as [| d l']; [reflexivity |].
  rewrite IH by discriminate. reflexivity.
Qed.

Lemma splitlines_newline (r : text) :
  splitlines (newline ++ r) = [] :: splitlines r.
Proof. destruct r; reflexivity. Qed.

Lemma splitlines_app_newline (l r : text) :
  Forall (fun c => is_linebreak c = false) l ->
  splitlines (l ++ newline ++ r) = l :: splitlines r.
Proof.
  intros Hl. induction Hl as [| c l Hc Hl IH].
  - apply splitlines_newline.
  - change ((c :: l) ++ newline ++ r) with (c :: (l ++ newline ++ r)).
    cbn [splitlines]. rewrite Hc, IH. reflexivity.
Qed.

Lemma join_cons2 (sep p q : text) (qs : list text) :
  join sep (p :: q :: qs) = p ++ sep ++ join sep (q :: qs).
Proof. reflexivity. Qed.

Lemma splitlines_join (chunks : list text) :
  Forall clean_line chunks ->
  splitlines (join newline chunks) = chunks.
Proof.
  induction 1 as [| p ps Hp Hps IH]; [reflexivity |].
  destruct Hp as (Hne & _ & _ & Hlb).
  destruct ps as [| q qs].
  - apply splitlines_line; [| exact Hlb].
    intros ->. discriminate.
  - rewrite join_cons2, splitlines_app_newline by exact Hlb.
    now rewrite IH.
Qed.

Lemma split_single_bounded (n : nat) (t : text) :
  List.length t <= n ->
  has_double_space t = false -> split_double_space t = [t].
Proof.
  revert t. induction n as [| n IH]; intros t Hlen H.
  - destruct t; [reflexivity | simpl in Hlen; lia].
  - destruct t as [| c [| c' t'']]; [reflexivity | reflexivity |].
    rewrite split_unfold. rewrite has_double_unfold in H.
    apply orb_false_iff in H. destruct H as [-> H].
    simpl in Hlen. rewrite IH by (simpl; lia || exact H). reflexivity.
Qed.

Lemma split_single (t : text) :
  has_double_space t = false -> split_double_space t = [t].
Proof. apply (split_single_bounded (List.length t)). lia. Qed.

Lemma normalize_clean (chunks : list text) :
  Forall clean_line chunks ->
  normalize_whitespace (join newline chunks) = join newline chunks.
Proof.
  intros Hclean. unfold normalize_whitespace.
  rewrite (splitlines_join chunks Hclean). f_equal.
  induction Hclean as [| p ps Hp Hps IH]; [reflexivity |].
  destruct Hp as (Hne & Hstrip & Hdouble & _).
  cbn [map flat_map]. rewrite Hstrip, (split_single p Hdouble).
  cbn [map app]. rewrite Hstrip. cbn [filter]. rewrite Hne.
  now rewrite IH.
Qed.

Lemma has_double_newline (b : text) :
  has_double_space (newline ++ b) = has_double_space b.
Proof. destruct b; reflexivity. Qed.

Lemma has_double_app_newline (a b : text) :
  has_double_space (a ++ newline ++ b)
  = has_double_space a || has_double_space b.
Proof.
  induction a as [| x a IH]; [apply has_double_newline |].
  destruct a as [| y a'].
  - change ([x] ++ newline ++ b) with (x :: 10%N :: b).
    rewrite has_double_unfold.
    change (has_double_space (10%N :: b))
      with (has_double_space (newline ++ b)).
    rewrite has_double_newline. now rewrite andb_false_r.
  - change ((x :: y :: a') ++ newline ++ b)
      with (x :: y :: (a' ++ newline ++ b)).
    rewrite !has_double_unfold.
    change (y :: a' ++ newline ++ b) with ((y :: a') ++ newline ++ b).
    rewrite IH. now rewrite orb_assoc.
Qed.

Lemma has_double_join (chunks : list text) :
  Forall clean_line chunks ->
  has_double_space (join newline chunks) = false.
Proof.
  induction 1 as [| p ps Hp Hps IH]; [reflexivity |].
  destruct Hp as (_ & _ & Hdouble & _).
  destruct ps as [| q qs]; [exact Hdouble |].
  now rewrite join_cons2, has_double_app_newline, Hdouble, IH.
Qed.

(** X6. In the normalised text every line is non-empty, has no whitespace
    at either end and no two spaces in a row; the lines are joined by
    single line feeds, and the text as a whole has no two spaces in a
    row. *)
Theorem X6_normalized_lines_clean (t : text) :
  Forall clean_line (splitlines (normalize_whitespace t))
  /\ normalize_whitespace t
     = join newline (splitlines (normalize_whitespace t))
  /\ has_double_space (normalize_whitespace t) = false.
Proof.
  pose proof (chunks_clean t) as Hclean.
  unfold normalize_whitespace.
  rewrite (splitlines_join _ Hclean).
  repeat split; [exact Hclean | exact (has_double_join _ Hclean)].
Qed.

(** X7. Normalising twice is normalising once. *)
Theorem X7_normalize_idempotent (t : text) :
  normalize_whitespace (normalize_whitespace t) = normalize_whitespace t.
Proof.
  unfold normalize_whitespace at 2 3.
  apply normalize_clean, chunks_clean.
Qed.

(** ** Content Fetcher, further *)







(** ** Text Extractor, further *)

Lemma extract_pages_ok_inv (pages : list pdf_page) (acc out : text) :
  extract_pages pages acc = Ok out ->
  exists texts,
    pages = map Ok texts
    /\ out = acc ++ List.concat (map (fun s => s ++ newline) texts).
Proof.
  revert acc. induction pages as [| page rest IH]; intros acc H.
  - simpl in H. injection H as <-. exists []. simpl.
    now rewrite app_nil_r.
  - simpl in H. destruct page as [s | e]; simpl in H; [| discriminate].
    destruct (IH _ H) as (texts & -> & ->).
    exists (s :: texts). simpl. now rewrite <- !app_assoc.
Qed.

(** X9. The extractor returns a text exactly when the document can be read
    and every page yields its text; the result is then each page's text
    followed by a line feed, in page order. *)
Theorem X9_extract_pages_in_order (f : pdf_file) (out : text) :
  extract_text_from_pdf f = Ok out
  <-> exists texts,
        f = Ok (map Ok texts)
        /\ out = List.concat (map (fun s => s ++ newline) texts).
Proof.
  split.
  - unfold extract_text_from_pdf. destruct f as [pages | e]; simpl.
    + destruct (extract_pages pages []) as [o | e] eqn:E; simpl;
        [| discriminate].
      intros H. injection H as ->.
      destruct (extract_pages_ok_inv pages [] out E) as (texts & -> & ->).
      now exists texts.
    + discriminate.
  - intros (texts & -> & ->). unfold extract_text_from_pdf. simpl.
    now rewrite extract_pages_all_ok.
Qed.

(** ** Analysis Client, further *)

Lemma step_returns_mapping (key : text) (step : text -> result Json.value) :
  In (key, step) parsing_steps ->
  forall t, exists pairs, step t = Ok (Json.JObject pairs).
Proof.
  intros Hin t.
  pose proof (parsing_steps_unfold key step Hin) as Hunfold.
  destruct (span_decided t)
    as [(i & j & v & Hi & Hj & Hlt & Hloads) | Hnone].
  - rewrite (step_span key step Hunfold t i j Hi Hj Hlt), Hloads.
    destruct (loads_object _ v (span_starts_with_brace t i j Hi Hlt) Hloads)
      as [pairs ->].
    now exists pairs.
  - rewrite (step_fallback key step Hunfold t Hnone). eauto.
Qed.

(** X10. Whatever the response, each of the three parsing steps returns a
    mapping: never a list, a string, a number or nothing. *)
Theorem X10_parse_returns_mapping :
  forall key step,
    In (key, step) parsing_steps ->
    forall t, exists pairs, step t = Ok (Json.JObject pairs).
Proof. exact step_returns_mapping. Qed.

Lemma X10_parse_returns_mapping_witness :
  exists pairs,
    Bedrock.analyze_job_description_parse (str "[1, 2, 3]")
    = Ok (Json.JObject pairs).
Proof.
  apply (X10_parse_returns_mapping Bedrock.raw_analysis_key).
  simpl. right. left. reflexivity.
Defined.

Lemma skipn_length_app (A : Type) (a b : list A) :
  skipn (List.length a) (a ++ b) = b.
Proof. induction a; [reflexivity | exact IHa]. Qed.

Lemma firstn_length_app (A : Type) (a b : list A) :
  firstn (List.length a) (a ++ b) = a.
Proof. induction a; [reflexivity | simpl; now rewrite IHa]. Qed.

Lemma first_index_after (c : char) (before rest : text) :
  ~ In c before ->
  first_index c (before ++ c :: rest) (List.length before).
Proof.
  intros Hnot. split.
  - rewrite nth_error_app2 by lia. now rewrite Nat.sub_diag.
  - intros k Hk. rewrite nth_error_app1 by exact Hk.
    now apply not_in_nth_error.
Qed.

Lemma last_index_before (c : char) (pre after : text) :
  ~ In c after ->
  last_index c (pre ++ c :: after) (List.length pre).
Proof.
  intros Hnot. split.
  - rewrite nth_error_app2 by lia. now rewrite Nat.sub_diag.
  - intros k Hk. rewrite nth_error_app2 by lia.
    destruct (k - List.length pre) as [| m] eqn:E; [lia |]. simpl.
    now apply not_in_nth_error.
Qed.

(** X11. Text around the braces does not reach the decoder: with no [{]
    before the opening brace and no [}] after the closing one, the step
    decodes the braced part alone.  When that fails, the fallback keeps
    the whole response, surroundings included. *)
Theorem X11_surroundings_ignored :
  forall key step,
    In (key, step) parsing_steps ->
    forall before body after : text,
      ~ In open_brace before ->
      ~ In close_brace after ->
      step (before ++ (open_brace :: body ++ [close_brace]) ++ after)
      = match Json.loads (open_brace :: body ++ [close_brace]) with
        | Ok v => Ok v
        | Raise _ =>
            Ok (Json.JObject
                  [(key,
                    Json.JString
                      (before ++ (open_brace :: body ++ [close_brace])
                       ++ after))])
        end.
Proof.
  intros key step Hin before body after Hopen Hclose.
  pose proof (parsing_steps_unfold key step Hin) as Hunfold.
  set (response := before ++ (open_brace :: body ++ [close_brace]) ++ after).
  assert (Hi : first_index open_brace response (List.length before)).
  { apply first_index_after. exact Hopen. }
  assert (Hj : last_index close_brace response
                          (List.length (before ++ open_brace :: body))).
  { replace response
      with ((before ++ open_brace :: body) ++ close_brace :: after).
    - apply last_index_before. exact Hclose.
    - unfold response. simpl. now rewrite <- !app_assoc. }
  rewrite length_app in Hj. simpl in Hj.
  rewrite (step_span key step Hunfold response _ _ Hi Hj) by lia.
  replace (firstn _ (skipn (List.length before) response))
    with (open_brace :: body ++ [close_brace]); [reflexivity |].
  unfold response. rewrite skipn_length_app.
  replace (List.length before + S (List.length body) + 1
           - List.length before)
    with (List.length (open_brace :: body ++ [close_brace]))
    by (simpl; rewrite length_app; simpl; lia).
  now rewrite firstn_length_app.
Qed.

Lemma X11_surroundings_ignored_witness :
  Bedrock.analyze_cv_parse
    (str "Result: " ++ (open_brace :: str "x" ++ [close_brace])
     ++ str " (end)")
  = Ok (Json.JObject
          [(Bedrock.raw_analysis_key,
            Json.JString
              (str "Result: " ++ (open_brace :: str "x" ++ [close_brace])
               ++ str " (end)"))]).
Proof.
  refine (X11_surroundings_ignored
            Bedrock.raw_analysis_key Bedrock.analyze_cv_parse
            (or_introl eq_refl) (str "Result: ") (str "x") (str " (end)")
            _ _).
  - intros H. simpl in H.
    repeat (destruct H as [H | H]; [discriminate |]). exact H.
  - intros H. simpl in H.
    repeat (destruct H as [H | H]; [discriminate |]). exact H.
Defined.



(** *** The normalised text is not longer than the text

    Every line feed that the normalisation puts between two pieces stands
    for at least one character it took out: a line boundary or a pair of
    spaces.  The count below charges one unit per piece. *)

Lemma length_concat_push_front (c : char) (pieces : list text) :
  List.length (List.concat (push_front c pieces))
  = S (List.length (List.concat pieces)).
Proof. now rewrite concat_push_front. Qed.

Lemma length_push_front (c : char) (pieces : list text) :
  List.length (push_front c pieces) = Nat.max 1 (List.length pieces).
Proof. destruct pieces; reflexivity. Qed.

Lemma splitlines_weight_bounded (n : nat) (t : text) :
  List.length t <= n ->
  List.length (List.concat (splitlines t))
  + Nat.max 1 (List.length (splitlines t))
  <= List.length t + 1.
Proof.
  revert t. induction n as [| n IH]; intros t Hlen.
  - destruct t; [simpl; lia | simpl in Hlen; lia].
  - destruct t as [| c t']; [simpl; lia |]. simpl in Hlen.
    change (splitlines (c :: t'))
      with (if is_linebreak c then
              match t' with
              | c' :: t'' =>
                  if (c =? 13)%N && (c' =? 10)%N
                  then [] :: splitlines t''
                  else [] :: splitlines t'
              | [] => [[]]
              end
            else push_front c (splitlines t')).
    destruct (is_linebreak c).
    + destruct t' as [| c' t'']; [simpl; lia |].
      simpl in Hlen.
      destruct ((c =? 13)%N && (c' =? 10)%N).
      * pose proof (IH t'' ltac:(lia)).
        cbn [List.concat app List.length]. lia.
      * pose proof (IH (c' :: t'') ltac:(simpl; lia)) as H.
        cbn [List.concat app List.length] in H |- *. lia.
    + rewrite length_concat_push_front, length_push_front.
      pose proof (IH t' ltac:(lia)).
      cbn [List.length]. lia.
Qed.

Lemma length_lstrip (t : text) : List.length (lstrip t) <= List.length t.
Proof.
  induction t as [| c t IH]; [simpl; lia |]. cbn [lstrip].
  destruct (is_space c); simpl; lia.
Qed.

Lemma length_rstrip (t : text) : List.length (rstrip t) <= List.length t.
Proof.
  induction t as [| c t IH]; [simpl; lia |]. cbn [rstrip].
  destruct (rstrip t); [destruct (is_space c) |]; simpl in *; lia.
Qed.

Lemma length_strip (t : text) : List.length (strip t) <= List.length t.
Proof.
  unfold strip. pose proof (length_rstrip (lstrip t)).
  pose proof (length_lstrip t). lia.
Qed.

Lemma split_weight_bounded (n : nat) (t : text) :
  List.length t <= n ->
  List.length (List.concat (split_double_space t))
  + Nat.max 1 (List.length (split_double_space t))
  <= List.length t + 1.
Proof.
  revert t. induction n as [| n IH]; intros t Hlen.
  - destruct t; [simpl; lia | simpl in Hlen; lia].
  - destruct t as [| c [| c' t'']]; [simpl; lia | simpl; lia |].
    rewrite split_unfold. simpl in Hlen.
    destruct ((c =? 32)%N && (c' =? 32)%N).
    + pose proof (IH t'' ltac:(lia)).
      cbn [List.concat app List.length]. lia.
    + rewrite length_concat_push_front, length_push_front.
      pose proof (IH (c' :: t'') ltac:(simpl; lia)) as H.
      cbn [List.length] in H |- *. lia.
Qed.

Lemma weight_map_strip (pieces : list text) :
  List.length (List.concat (map strip pieces))
  <= List.length (List.concat pieces)
  /\ List.length (map strip pieces) = List.length pieces.
Proof.
  split; [| apply length_map].
  induction pieces as [| p ps IH]; [simpl; lia |].
  simpl. rewrite !length_app. pose proof (length_strip p). lia.
Qed.

Lemma weight_flat_map (f : text -> list text) (lines : list text) :
  (forall x,
      List.length (List.concat (f x)) + List.length (f x)
      <= List.length x + 1) ->
  List.length (List.concat (flat_map f lines))
  + List.length (flat_map f lines)
  <= List.length (List.concat lines) + List.length lines.
Proof.
  intros Hf. induction lines as [| l ls IH]; [simpl; lia |].
  simpl. rewrite concat_app, !length_app.
  pose proof (Hf l). lia.
Qed.

Lemma weight_filter_nonempty (pieces : list text) :
  List.length (List.concat (filter nonempty pieces))
  + List.length (filter nonempty pieces)
  <= List.length (List.concat pieces) + List.length pieces.
Proof.
  induction pieces as [| p ps IH]; [simpl; lia |].
  destruct p; simpl; rewrite ?length_app; simpl; lia.
Qed.

Lemma length_join (pieces : list text) :
  List.length (join newline pieces) + 1
  <= List.length (List.concat pieces) + Nat.max 1 (List.length pieces).
Proof.
  induction pieces as [| p ps IH]; [simpl; lia |].
  destruct ps as [| q qs].
  - simpl. rewrite app_nil_r. lia.
  - rewrite join_cons2.
    change (List.concat (p :: q :: qs)) with (p ++ List.concat (q :: qs)).
    rewrite !length_app.
    cbn [List.length newline] in IH |- *. lia.
Qed.

(** X13. The normalisation never makes the text longer. *)
Theorem X13_normalize_not_longer (t : text) :
  (len (normalize_whitespace t) <= len t)%Z.
Proof.
  unfold len, normalize_whitespace.
  set (lines := map strip (splitlines t)).
  set (chunks :=
         flat_map (fun line => map strip (split_double_space line)) lines).
  pose proof (length_join (filter nonempty chunks)) as Hjoin.
  pose proof (weight_filter_nonempty chunks) as Hfilter.
  assert (Hchunks :
            List.length (List.concat chunks) + List.length chunks
            <= List.length (List.concat lines) + List.length lines).
  { apply weight_flat_map. intros x.
    destruct (weight_map_strip (split_double_space x)) as [Hc Hl].
    pose proof (split_weight_bounded (List.length x) x (le_n _)).
    lia. }
  destruct (weight_map_strip (splitlines t)) as [Hc Hl].
  fold lines in Hc, Hl.
  pose proof (splitlines_weight_bounded (List.length t) t (le_n _)) as Ht.
  assert (Hcases :
            filter nonempty chunks = []
            \/ 1 <= List.length (filter nonempty chunks)).
  { destruct (filter nonempty chunks); [now left | right; simpl; lia]. }
  destruct Hcases as [Hnil | Hpos].
  - rewrite Hnil. simpl. lia.
  - lia.
Qed.

(** ** The decoder's fuel

    [Json.loads] hands the recursive decoder a fuel of twice the input
    length plus one.  Every successful scan consumes input, so that amount
    is never used up: the result is the same for any larger fuel. *)

Lemma skip_ws_length (t : text) :
  List.length (Json.skip_ws t) <= List.length t.
Proof.
  induction t as [| c t IH]; simpl; [lia |].
  destruct (Json.is_ws c); simpl; lia.
Qed.

Ltac split_hyp H :=
  match type of H with
  | context [match ?x with _ => _ end] => destruct x eqn:?; try discriminate
  | context [if ?b then _ else _] => destruct b eqn:?; try discriminate
  end.

Arguments Json.hex4 : simpl never.
Arguments Json.simple_escape : simpl never.
Arguments Json.is_high_surrogate : simpl never.
Arguments Json.is_low_surrogate : simpl never.
Arguments Json.join_surrogates : simpl never.
Arguments N.eqb : simpl never.
Arguments Json.scan_atom : simpl never.
Arguments N.ltb : simpl never.

Lemma scan_string_shorter_bounded (n : nat) (t s r : text) :
  List.length t <= n ->
  Json.scan_string t = Ok (s, r) ->
  List.length r < List.length t.
Proof.
  revert t s r. induction n as [| n IH]; intros t s r Hlen H.
  - destruct t; [discriminate | simpl in Hlen; lia].
  - destruct t as [| c t1]; [discriminate |].
    simpl in H.
    repeat split_hyp H;
      try (injection H as <- <-); subst;
      repeat match goal with
             | E : Json.scan_string ?u = Ok (_, _) |- _ =>
                 apply IH in E; [| simpl in Hlen |- *; lia]
             end;
      simpl in *; lia.
Qed.

Lemma scan_string_shorter (t s r : text) :
  Json.scan_string t = Ok (s, r) -> List.length r < List.length t.
Proof. apply (scan_string_shorter_bounded (List.length t)). lia. Qed.

Lemma take_digits_length (t ds r : text) :
  Json.take_digits t = (ds, r) -> List.length r <= List.length t.
Proof.
  revert ds r. induction t as [| c t IH]; intros ds r H; simpl in H.
  - injection H as <- <-. simpl. lia.
  - destruct (Json.is_digit c).
    + destruct (Json.take_digits t) as [ds' r'] eqn:E.
      injection H as <- <-. specialize (IH _ _ eq_refl). simpl. lia.
    + injection H as <- <-. lia.
Qed.

Lemma int_part_shorter (t ip r : text) :
  Json.int_part t = Some (ip, r) -> List.length r < List.length t.
Proof.
  destruct t as [| c t]; simpl; [discriminate |].
  destruct (c =? 48)%N.
  - intros H. injection H as <- <-. lia.
  - destruct ((49 <=? c)%N && (c <=? 57)%N); [| discriminate].
    destruct (Json.take_digits t) as [ds r'] eqn:E.
    intros H. injection H as <- <-.
    apply take_digits_length in E. lia.
Qed.

Lemma frac_part_length (t fp r : text) :
  Json.frac_part t = (fp, r) -> List.length r <= List.length t.
Proof.
  destruct t as [| c t]; simpl.
  - intros H. injection H as <- <-. simpl. lia.
  - destruct (c =? 46)%N.
    + destruct (Json.take_digits t) as [ds r'] eqn:E.
      apply take_digits_length in E.
      destruct ds; intros H; injection H as <- <-; simpl; lia.
    + intros H. injection H as <- <-. simpl. lia.
Qed.

Lemma sign_part_length (t sg r : text) :
  Json.sign_part t = (sg, r) -> List.length r <= List.length t.
Proof.
  destruct t as [| c t]; simpl.
  - intros H. injection H as <- <-. simpl. lia.
  - destruct ((c =? 43)%N || (c =? 45)%N);
      intros H; injection H as <- <-; simpl; lia.
Qed.

Lemma exp_part_length (t ep r : text) :
  Json.exp_part t = (ep, r) -> List.length r <= List.length t.
Proof.
  destruct t as [| c t]; simpl.
  - intros H. injection H as <- <-. simpl. lia.
  - destruct ((c =? 101)%N || (c =? 69)%N).
    + destruct (Json.sign_part t) as [sg u] eqn:Es.
      apply sign_part_length in Es.
      destruct (Json.take_digits u) as [ds r'] eqn:E.
      apply take_digits_length in E.
      destruct ds; intros H; injection H as <- <-; simpl; lia.
    + intros H. injection H as <- <-. simpl. lia.
Qed.

Lemma match_number_shorter (t r : text) (v : Json.value) :
  Json.match_number t = Some (v, r) -> List.length r < List.length t.
Proof.
  unfold Json.match_number.
  set (start := match t with
                | [] => (false, t)
                | c :: t' => if (c =? 45)%N then (true, t') else (false, t)
                end).
  assert (Hstart : List.length (snd start) <= List.length t).
  { subst start. destruct t as [| c t']; simpl; [lia |].
    destruct (c =? 45)%N; simpl; lia. }
  destruct start as [neg t1]. simpl in Hstart.
  destruct (Json.int_part t1) as [[ip r1] |] eqn:Ei; [| discriminate].
  apply int_part_shorter in Ei.
  destruct (Json.frac_part r1) as [fp r2] eqn:Ef.
  apply frac_part_length in Ef.
  destruct (Json.exp_part r2) as [ep r3] eqn:Ee.
  apply exp_part_length in Ee.
  destruct (nonempty fp || nonempty ep);
    intros H; injection H as _ <-; lia.
Qed.

Lemma starts_with_length (sub t : text) :
  starts_with sub t = true -> List.length sub <= List.length t.
Proof.
  revert t. induction sub as [| c sub IH]; intros t H; simpl; [lia |].
  destruct t as [| d t]; [discriminate |].
  simpl in H. apply andb_true_iff in H. destruct H as [_ H].
  apply IH in H. simpl. lia.
Qed.

Lemma keyword_shorter (kw : string) (v v' : Json.value) (t r : text) :
  0 < List.length (str kw) ->
  Json.keyword kw v t = Some (v', r) -> List.length r < List.length t.
Proof.
  unfold Json.keyword. intros Hkw.
  destruct (starts_with (str kw) t) eqn:E; [| discriminate].
  apply starts_with_length in E.
  intros H. injection H as _ <-. rewrite length_skipn. lia.
Qed.

Lemma scan_atom_shorter (t r : text) (v : Json.value) :
  Json.scan_atom t = Ok (v, r) -> List.length r < List.length t.
Proof.
  unfold Json.scan_atom. intros H.
  repeat split_hyp H;
    inversion H; subst;
    try (eapply match_number_shorter; eassumption);
    try (eapply keyword_shorter; [| eassumption]; simpl; lia).
Qed.

Ltac note_skip_ws :=
  repeat match goal with
         | E : Json.skip_ws ?u = _ |- _ =>
             let L := fresh "L" in
             pose proof (skip_ws_length u) as L; rewrite E in L; clear E
         end;
  repeat match goal with
         | _ : context [Json.skip_ws ?u] |- _ =>
             lazymatch goal with
             | _ : List.length (Json.skip_ws u) <= List.length u |- _ => fail
             | _ => pose proof (skip_ws_length u)
             end
         | |- context [Json.skip_ws ?u] =>
             lazymatch goal with
             | _ : List.length (Json.skip_ws u) <= List.length u |- _ => fail
             | _ => pose proof (skip_ws_length u)
             end
         end.

Ltac note_leaves :=
  repeat match goal with
         | E : Json.scan_string _ = Ok (_, _) |- _ =>
             apply scan_string_shorter in E
         | E : Json.scan_atom _ = Ok (_, _) |- _ =>
             apply scan_atom_shorter in E
         end.

(** A successful scan consumes at least one character. *)
Lemma scan_shorter (fuel : nat) :
  (forall t v r,
      Json.scan_once fuel t = Ok (v, r) -> List.length r < List.length t)
  /\ (forall acc t v r,
         Json.parse_members fuel acc t = Ok (v, r) ->
         List.length r < List.length t)
  /\ (forall acc t v r,
         Json.parse_elements fuel acc t = Ok (v, r) ->
         List.length r < List.length t).
Proof.
  induction fuel as [| fuel (IHv & IHm & IHe)].
  - repeat split; intros; discriminate.
  - repeat split.
    + intros t v r H. simpl in H.
      destruct t as [| c t']; [discriminate |].
      repeat split_hyp H;
        try (match type of H with
             | Ok _ = Ok _ => inversion H; subst; clear H
             end);
        repeat match goal with
               | E : Json.parse_members fuel _ _ = Ok (_, _) |- _ =>
                   apply IHm in E
               | E : Json.parse_elements fuel _ _ = Ok (_, _) |- _ =>
                   apply IHe in E
               end;
        note_leaves; note_skip_ws; cbn [List.length] in *; lia.
    + intros acc t v r H. simpl in H.
      repeat split_hyp H;
        try (match type of H with
             | Ok _ = Ok _ => inversion H; subst; clear H
             end);
        repeat match goal with
               | E : Json.scan_once fuel _ = Ok (_, _) |- _ => apply IHv in E
               | E : Json.parse_members fuel _ _ = Ok (_, _) |- _ =>
                   apply IHm in E
               end;
        note_leaves; note_skip_ws; cbn [List.length] in *; lia.
    + intros acc t v r H. simpl in H.
      repeat split_hyp H;
        try (match type of H with
             | Ok _ = Ok _ => inversion H; subst; clear H
             end);
        repeat match goal with
               | E : Json.scan_once fuel _ = Ok (_, _) |- _ => apply IHv in E
               | E : Json.parse_elements fuel _ _ = Ok (_, _) |- _ =>
                   apply IHe in E
               end;
        note_leaves; note_skip_ws; cbn [List.length] in *; lia.
Qed.

Ltac note_scans :=
  repeat match goal with
         | E : Json.scan_once ?f _ = Ok (_, _) |- _ =>
             apply (proj1 (scan_shorter f)) in E
         end.

Ltac enough_fuel :=
  note_leaves; note_scans; note_skip_ws; cbn [List.length] in *; lia.

Ltac split_goal :=
  match goal with
  | |- context [match ?x with _ => _ end] => destruct x eqn:?
  | |- context [if ?b then _ else _] => destruct b eqn:?
  end.

(** Once the fuel exceeds what the input can use, the result no longer
    depends on it. *)
Lemma fuel_irrelevant (f1 : nat) :
  forall f2,
    (forall t,
        2 * List.length t < f1 -> 2 * List.length t < f2 ->
        Json.scan_once f1 t = Json.scan_once f2 t)
    /\ (forall acc t,
           2 * List.length t + 1 < f1 -> 2 * List.length t + 1 < f2 ->
           Json.parse_members f1 acc t = Json.parse_members f2 acc t)
    /\ (forall acc t,
           2 * List.length t + 1 < f1 -> 2 * List.length t + 1 < f2 ->
           Json.parse_elements f1 acc t = Json.parse_elements f2 acc t).
Proof.
  induction f1 as [| f1 IH]; intros f2.
  - repeat split; intros; lia.
  - destruct f2 as [| f2]; [repeat split; intros; lia |].
    destruct (IH f2) as (IHv & IHm & IHe).
    repeat split.
    + intros t H1 H2. simpl.
      destruct t as [| c t']; [reflexivity |].
      repeat first
             [ reflexivity
             | rewrite IHm by enough_fuel
             | rewrite IHe by enough_fuel
             | split_goal ].
    + intros acc t H1 H2. simpl.
      repeat first
             [ reflexivity
             | rewrite IHv by enough_fuel
             | rewrite IHm by enough_fuel
             | split_goal ].
    + intros acc t H1 H2. simpl.
      repeat first
             [ reflexivity
             | rewrite IHv by enough_fuel
             | rewrite IHe by enough_fuel
             | split_goal ].
Qed.

(** [loads] gives the decoder enough fuel: any larger amount yields the
    same result. *)
Lemma loads_fuel_enough (s : text) (fuel : nat) :
  2 * List.length s < fuel ->
  Json.scan_once fuel (Json.skip_ws s)
  = Json.scan_once (S (2 * List.length s)) (Json.skip_ws s).
Proof.
  intros H. pose proof (skip_ws_length s).
  apply (proj1 (fuel_irrelevant fuel (S (2 * List.length s)))); lia.
Qed.
